(** * python-gnu-coreutils: FifoBuffer, copy and more

    A shallow embedding of [lib/textproc/buffer.py], [lib/system/fileutils.py]
    and [lib/textproc/page.py], and the properties of these programs.

    Python integers are [Z]; Python lists are [list]; a method that mutates
    [self] returns the new [self] next to its result. *)

From Stdlib Require Import ZArith Lia List Strings.Ascii Strings.String Strings.Byte.
From stdpp Require Import base list.
From Equations Require Import Equations.

Local Open Scope Z_scope.

(** ** Python sequence slices *)

Module Slice.

(** The bound [stop] of [l[:stop]] for a sequence of [n] elements: a
    negative bound counts from the end, and the result is clamped to
    [0 .. n]. *)
Definition stop_index (n : nat) (stop : Z) : nat :=
  if stop <? 0 then Z.to_nat (Z.max 0 (Z.of_nat n + stop))
  else Z.to_nat (Z.min stop (Z.of_nat n)).

(** [l[:stop]] *)
Definition upto {A : Type} (l : list A) (stop : Z) : list A :=
  take (stop_index (length l) stop) l.

(** [l[:stop] = v]: the prefix [l[:stop]] is replaced by the elements
    of [v]; this returns the new value of [l]. *)
Definition assign_upto {A : Type} (l : list A) (stop : Z) (v : list A) : list A :=
  v ++ drop (stop_index (length l) stop) l.

End Slice.

(** ** lib/textproc/buffer.py *)

Module Buffer.
Section FifoBuffer.
Context {A : Type}.

(** An instance of [class FifoBuffer]: its three attributes.  The factory
    [creator] is called with no argument. *)
Record FifoBuffer : Type := {
  size : Z;
  creator : unit -> list A;
  buffer : list A
}.

Definition _create_buffer (self : FifoBuffer) : list A :=
  creator self tt.

Definition __init__ (size0 : Z) (creator0 : unit -> list A) : FifoBuffer :=
  let self := {| size := Z.abs size0; creator := creator0; buffer := [] |} in
  {| size := size self; creator := creator self; buffer := _create_buffer self |}.

(** [self.buffer = v] *)
Definition set_buffer (self : FifoBuffer) (v : list A) : FifoBuffer :=
  {| size := size self; creator := creator self; buffer := v |}.

(** [filter] returns [res] and the instance after the call. *)
Definition filter (self : FifoBuffer) (data : list A) : list A * FifoBuffer :=
  if size self =? 0 then
    (data, self)
  else
    let self := set_buffer self (buffer self ++ data) in
    if Z.of_nat (length (buffer self)) >? size self then
      let res := Slice.upto (buffer self) (- size self) in
      let self :=
        set_buffer self
          (Slice.assign_upto (buffer self) (- size self) (_create_buffer self)) in
      (res, self)
    else
      (_create_buffer self, self).

Definition get_buffer (self : FifoBuffer) : list A :=
  Slice.upto (buffer self) (size self).

(** The factory [list]: every call makes an empty list. *)
Definition list_factory : unit -> list A := fun _ => [].

(** A caller: successive [filter] calls with the inputs [ds]; the values
    returned, in call order, and the instance after the last call. *)
Fixpoint run (self : FifoBuffer) (ds : list (list A)) : list (list A) * FifoBuffer :=
  match ds with
  | [] => ([], self)
  | d :: ds' =>
      let '(res, self1) := filter self d in
      let '(outs, self2) := run self1 ds' in
      (res :: outs, self2)
  end.

(** A caller that mixes the two public methods. *)
Inductive call : Type :=
| Filter (data : list A)
| GetBuffer.

Fixpoint exec (self : FifoBuffer) (cs : list call) : list (list A) * FifoBuffer :=
  match cs with
  | [] => ([], self)
  | Filter data :: cs' =>
      let '(res, self1) := filter self data in
      let '(outs, self2) := exec self1 cs' in
      (res :: outs, self2)
  | GetBuffer :: cs' =>
      let '(outs, self2) := exec self cs' in
      (get_buffer self :: outs, self2)
  end.

(** What a caller has in hand after [run]: everything returned, then the
    window. *)
Definition aggregate (r : list (list A) * FifoBuffer) : list A :=
  concat (fst r) ++ get_buffer (snd r).

(** The number of elements that do not fit once [data] is appended. *)
Definition overflow (self : FifoBuffer) (data : list A) : nat :=
  (length (buffer self ++ data) - Z.to_nat (size self))%nat.

(** The capacity is not negative and the factory makes empty lists: the
    instances that the constructor makes from a factory of empty lists,
    in any state. *)
Definition list_instance (self : FifoBuffer) : Prop :=
  0 <= size self /\ creator self tt = [].

(** The window is within the capacity. *)
Definition within (self : FifoBuffer) : Prop :=
  0 < size self -> Z.of_nat (length (buffer self)) <= size self.

End FifoBuffer.
Arguments FifoBuffer : clear implicits.
Arguments call : clear implicits.
End Buffer.

(** ** lib/textproc/buffer.py, with the lists as objects in a store

    Python lists are mutable objects, and [filter] works on [self.buffer]
    in place ([extend], slice assignment).  Here list objects live in a
    store and an attribute holds a reference, so that one can say which
    object a method returns and which objects it changes. *)

Module Store.

(** A reference to a list object. *)
Abbreviation ref := nat (only parsing).

(** The list objects made so far; the object [r] is the [r]-th one. *)
Abbreviation store A := (list (list A)) (only parsing).

Section FifoBuffer.
Context {A : Type}.

(** The value of the object [r]. *)
Definition deref (h : store A) (r : ref) : list A := default [] (h !! r).

(** A new list object of value [v]. *)
Definition alloc (h : store A) (v : list A) : ref * store A :=
  (length h, h ++ [v]).

(** The object [r] takes the value [v]; [r] stays the same object. *)
Definition mutate (h : store A) (r : ref) (v : list A) : store A := <[r := v]> h.

(** The attributes of an instance.  A factory may make a new object, and
    returns a reference. *)
Record FifoBuffer : Type := {
  size : Z;
  creator : store A -> ref * store A;
  buffer : ref
}.

Definition _create_buffer (self : FifoBuffer) (h : store A) : ref * store A :=
  creator self h.

Definition __init__ (size0 : Z) (creator0 : store A -> ref * store A) (h : store A)
  : FifoBuffer * store A :=
  let self := {| size := Z.abs size0; creator := creator0; buffer := 0%nat |} in
  let '(b, h) := _create_buffer self h in
  ({| size := size self; creator := creator self; buffer := b |}, h).

(** The methods return their result, the attributes of [self] after the
    call and the store after the call. *)
Definition filter (self : FifoBuffer) (data : ref) (h : store A)
  : ref * FifoBuffer * store A :=
  if size self =? 0 then
    (data, self, h)
  else
    (* self.buffer.extend(data) *)
    let h := mutate h (buffer self) (deref h (buffer self) ++ deref h data) in
    if Z.of_nat (length (deref h (buffer self))) >? size self then
      (* res = self.buffer[:-self.size] *)
      let '(res, h) := alloc h (Slice.upto (deref h (buffer self)) (- size self)) in
      (* self.buffer[:-self.size] = self._create_buffer() *)
      let '(v, h) := _create_buffer self h in
      let h :=
        mutate h (buffer self)
          (Slice.assign_upto (deref h (buffer self)) (- size self) (deref h v)) in
      (res, self, h)
    else
      let '(res, h) := _create_buffer self h in
      (res, self, h).

Definition get_buffer (self : FifoBuffer) (h : store A) : ref * FifoBuffer * store A :=
  let '(res, h) := alloc h (Slice.upto (deref h (buffer self)) (size self)) in
  (res, self, h).

(** The factory [list]: every call makes a new empty list object. *)
Definition list_factory : store A -> ref * store A := fun h => alloc h [].

(** The instance as a value: each reference replaced by the value of its
    object, the factory being [list]. *)
Definition value_of (self : FifoBuffer) (h : store A) : Buffer.FifoBuffer A :=
  {| Buffer.size := size self;
     Buffer.creator := Buffer.list_factory;
     Buffer.buffer := deref h (buffer self) |}.

End FifoBuffer.
Arguments FifoBuffer : clear implicits.
End Store.

(** ** lib/system/fileutils.py *)

Module Fileutils.

(** The module constant [bufsize]. *)
Definition bufsize : Z := 4096.

(** The exceptions that the methods of a file raise here. *)
Inductive exn : Type :=
| ValueError
| OverflowError
| TypeError.

(** A binary file open for reading: its bytes and the read position. *)
Record reader : Type := {
  r_bytes : list byte;
  r_pos : nat
}.

(** A binary file open for writing, new or truncated: the arguments of
    the [write] calls so far, in call order. *)
Definition writer : Type := list (list byte).

(** [open(path, 'rb')] on a file holding [bs], and [open(path, 'wb')]. *)
Definition open_rb (bs : list byte) : reader := {| r_bytes := bs; r_pos := 0 |}.
Definition open_wb : writer := [].

(** The bytes not read yet. *)
Definition rest (f : reader) : list byte := drop (r_pos f) (r_bytes f).

(** The integers that fit the index type of the interpreter ([Py_ssize_t],
    64 bits here): a method that takes a size converts its argument to
    that type first. *)
Definition ssize_min : Z := - 9223372036854775808.
Definition ssize_max : Z := 9223372036854775807.

Definition fits_index (n : Z) : bool := (ssize_min <=? n) && (n <=? ssize_max).

(** [f.read(n)] on a file opened with ['rb']: [OverflowError] when [n]
    does not fit the index type, [ValueError] when [n < -1]; otherwise all
    the remaining bytes when [n = -1] and at most [n] bytes from the read
    position when [n >= 0], the position moving past the bytes returned.
    A call that raises leaves the file as it is.  Memory is taken to be
    sufficient for the bytes asked for. *)
Definition read (f : reader) (n : Z) : exn + list byte * reader :=
  if negb (fits_index n) then inl OverflowError
  else if n <? - 1 then inl ValueError
  else
    let data := if n =? - 1 then rest f else take (Z.to_nat n) (rest f) in
    inr (data, {| r_bytes := r_bytes f; r_pos := r_pos f + length data |}).

(** [f.write(data)] *)
Definition write (f : writer) (data : list byte) : writer := f ++ [data].

(** The bytes of the file written. *)
Definition contents (f : writer) : list byte := concat f.

Lemma read_shorter (f f' : reader) (n : Z) (b : byte) (data : list byte) :
  read f n = inr (b :: data, f') ->
  (length (rest f') < length (rest f))%nat.
Proof.
  unfold read. destruct (negb (fits_index n)); [ discriminate | ].
  destruct (n <? - 1); [ discriminate | ].
  intros H. injection H as Hd <-.
  assert (length (b :: data) <= length (rest f))%nat as Hle.
  { rewrite <- Hd. destruct (n =? - 1); [ lia | rewrite length_take; lia ]. }
  rewrite Hd. unfold rest in *. cbn [r_bytes r_pos].
  rewrite !length_drop. rewrite length_drop in Hle. cbn [length] in *. lia.
Qed.

(** A value together with the equation that says where it comes from. *)
Definition inspect {X : Type} (x : X) : {y : X | x = y} := exist _ x eq_refl.

(** The loop of [copy], from the state of the two files at the loop
    head: the exception that leaves the loop, if one is raised, and the
    state of the two files when the loop is left, by the [break] or by
    the exception. *)
Equations? copy_loop (bufsize : Z) (srcFile : reader) (dstFile : writer)
  : option exn * (reader * writer) by wf (length (rest srcFile)) lt :=
  copy_loop bufsize srcFile dstFile with inspect (read srcFile bufsize) := {
    | exist _ (inl e) _ => (Some e, (srcFile, dstFile))
    | exist _ (inr ([], srcFile')) _ => (None, (srcFile', dstFile))
    | exist _ (inr (b :: data, srcFile')) Hread =>
        copy_loop bufsize srcFile' (write dstFile (b :: data)) }.
Proof.
  eapply read_shorter. eassumption.
Qed.

(** One pass through the loop body: the exception raised, [None] at the
    [break], or the state at the loop head again. *)
Definition loop_body (bufsize : Z) (st : reader * writer)
  : exn + option (reader * writer) :=
  match read (fst st) bufsize with
  | inl e => inl e
  | inr ([], _) => inr None
  | inr (b :: data, srcFile) => inr (Some (srcFile, write (snd st) (b :: data)))
  end.

(** [next_pass bufsize st' st]: from [st] at the loop head, one pass
    leads to [st'] at the loop head again. *)
Definition next_pass (bufsize : Z) (st' st : reader * writer) : Prop :=
  loop_body bufsize st = inr (Some st').

(** The loop run for at most [fuel] passes: [None] when the loop is not
    left within them. *)
Fixpoint loop_fuel (fuel : nat) (bufsize : Z) (st : reader * writer)
  : option (option exn * (reader * writer)) :=
  match fuel with
  | O => None
  | S fuel' =>
      match read (fst st) bufsize with
      | inl e => Some (Some e, st)
      | inr ([], srcFile) => Some (None, (srcFile, snd st))
      | inr (b :: data, srcFile) =>
          loop_fuel fuel' bufsize (srcFile, write (snd st) (b :: data))
      end
  end.

(** [copy(srcPath, dstPath, bufsize)], where the file [srcPath] holds
    [src] and [dstPath] is another file: the exception that the call
    raises, if any, and the writes made to [dstPath].  [None] for
    [bufsize0] is a call without the third argument. *)
Definition copy (src : list byte) (bufsize0 : option Z) : option exn * writer :=
  let bufsize := default bufsize bufsize0 in
  let srcFile := open_rb src in
  let dstFile := open_wb in
  let '(raised, (_, dstFile)) := copy_loop bufsize srcFile dstFile in
  (raised, dstFile).

(** *** read_data and write_out *)

(** The line feed, which ends a line of a binary file. *)
Definition newline : byte := x0a.

(** The lines of [bs], each with its line feed; the last one has none
    when [bs] does not end with a line feed. *)
Fixpoint split_lines (bs : list byte) : list (list byte) :=
  match bs with
  | [] => []
  | b :: bs' =>
      if Byte.eqb b newline then [b] :: split_lines bs'
      else
        match split_lines bs' with
        | [] => [[b]]
        | line :: lines => (b :: line) :: lines
        end
  end.

(** The loop of [readlines(hint)] for [hint > 0]: lines are taken until
    the total size of the lines taken exceeds [hint]; [size] is the total
    size of the lines taken before. *)
Fixpoint take_lines (hint size : Z) (lines : list (list byte)) : list (list byte) :=
  match lines with
  | [] => []
  | line :: lines' =>
      line ::
      (if Z.of_nat (length line) >? hint - size then []
       else take_lines hint (size + Z.of_nat (length line)) lines')
  end.

(** [f.readlines(hint)] on a file opened with ['rb']: [OverflowError] when
    [hint] does not fit the index type; otherwise the lines from the read
    position on, all of them when [hint <= 0]; the position moves past
    the lines returned. *)
Definition readlines (f : reader) (hint : Z) : exn + list (list byte) * reader :=
  if negb (fits_index hint) then inl OverflowError
  else
    let lines :=
      if hint <=? 0 then split_lines (rest f)
      else take_lines hint 0 (split_lines (rest f)) in
    inr (lines, {| r_bytes := r_bytes f; r_pos := r_pos f + length (concat lines) |}).

(** What [read_data] returns: the [bytes] of [read], or the list of lines
    of [readlines]. *)
Inductive data : Type :=
| Bytes (bs : list byte)
| Lines (lines : list (list byte)).

(** [read_data] on a file [src] opened with ['rb']: the exception raised,
    or [data] and the file after the call. *)
Definition read_data (src : reader) (is_line_mode : bool) (bs : Z)
  : exn + data * reader :=
  let default_line_buffer := 256 in
  let default_byte_buffer := 1048576 in
  if is_line_mode then
    let bs := Z.min bs default_line_buffer in
    match readlines src bs with
    | inl e => inl e
    | inr (data, src) => inr (Lines data, src)
    end
  else
    let bs := Z.min bs default_byte_buffer in
    match read src bs with
    | inl e => inl e
    | inr (data, src) => inr (Bytes data, src)
    end.

(** [write_out] returns the file [dst] after the call; [None] is the
    [TypeError] of [dst.write] on an argument that is not [bytes]: an
    element of [bytes] in line mode, a list otherwise. *)
Definition write_out (dst : writer) (d : data) (is_line_mode : bool) : option writer :=
  if is_line_mode then
    match d with
    | Lines lines => Some (fold_left write lines dst)
    | Bytes [] => Some dst
    | Bytes (_ :: _) => None
    end
  else
    match d with
    | Bytes bs => Some (write dst bs)
    | Lines _ => None
    end.

(** The bytes that [d] holds. *)
Definition bytes_of (d : data) : list byte :=
  match d with
  | Bytes bs => bs
  | Lines lines => concat lines
  end.

End Fileutils.

(** ** lib/textproc/page.py *)

Module Page.

(** What [more] works on: the lines [data.readline()] has still to
    deliver, the keys [getch()] has still to deliver, and the strings
    printed so far, in order. *)
Record world : Type := {
  data : list string;
  keys : list ascii;
  printed : list string
}.

(** [data.readline()]: the next line, the empty string at the end. *)
Definition readline (w : world) : string * world :=
  match data w with
  | [] => (EmptyString, w)
  | line :: rest => (line, {| data := rest; keys := keys w; printed := printed w |})
  end.

(** [getch()]: the next key; [None] when no key comes any more. *)
Definition getch (w : world) : option (ascii * world) :=
  match keys w with
  | [] => None
  | k :: rest => Some (k, {| data := data w; keys := rest; printed := printed w |})
  end.

(** [print(s, end='')] *)
Definition print (s : string) (w : world) : world :=
  {| data := data w; keys := keys w; printed := printed w ++ [s] |}.

(** The truth value of a string, and of a variable that holds [None] or
    a string. *)
Definition truthy (s : string) : bool :=
  match s with
  | EmptyString => false
  | String _ _ => true
  end.

Definition truthy_opt (s : option string) : bool :=
  match s with
  | None => false
  | Some s => truthy s
  end.

(** How a loop nest inside [more] ends. *)
Inductive flow (X : Type) : Type :=
| Next (x : X)          (* the loop is left, the function goes on *)
| Return (w : world).   (* [return] *)
Arguments Next {X} x.
Arguments Return {X} w.

(** How a call of [more] ends. *)
Inductive outcome : Type :=
| AtEnd      (* [return] at the end of [data] *)
| Quit       (* [break] on another key *)
| Waiting.   (* blocked in [getch()] *)

(** The space, the carriage return and the line feed. *)
Definition space : ascii := Ascii.ascii_of_nat 32.
Definition cr : ascii := Ascii.ascii_of_nat 13.
Definition lf : ascii := Ascii.ascii_of_nat 10.

Section more.

(** The collaborators that [more] imports from [textproc.wrap] and
    [system.term]: [wrap line limit] is [Wrap().wrap(line, limit).read()],
    [term_lines] is [Term().lines()] and [term_cols] is [Term().cols()]. *)
Variable wrap : string -> Z -> string * string.
Variable term_lines term_cols : Z.

(** [while line: ...], with the local variables it reads and writes.
    Every loop takes [fuel]: [None] is a loop that has not ended within
    it. *)
Fixpoint while_line (fuel : nat) (limit : Z)
    (line : string) (size : Z) (leftdata : option string) (w : world)
  : option (string * Z * option string * world) :=
  match fuel with
  | O => None
  | S fuel =>
      if truthy line then
        let '(wrapped, line) := wrap line limit in
        let w := print wrapped w in
        let size := size - 1 in
        if size =? 0 then
          let leftdata := Some line in
          Some (line, size, leftdata, w)
        else while_line fuel limit line size leftdata w
      else Some (line, size, leftdata, w)
  end.

(** [while size: ...]; [line] is [None] before its first assignment. *)
Fixpoint while_size (fuel : nat) (limit : Z)
    (line : option string) (size : Z) (leftdata : option string) (w : world)
  : option (flow (option string * Z * option string * world)) :=
  match fuel with
  | O => None
  | S fuel =>
      if size =? 0 then Some (Next (line, size, leftdata, w))
      else
        (* if leftdata: line, leftdata = leftdata, None *)
        let '(line, leftdata) :=
          if truthy_opt leftdata then (leftdata, None) else (line, leftdata) in
        (* line = data.readline() *)
        let '(line, w) := readline w in
        if negb (truthy line) then Some (Return w)
        else
          match while_line fuel limit line size leftdata w with
          | None => None
          | Some (line, size, leftdata, w) =>
              while_size fuel limit (Some line) size leftdata w
          end
  end.

(** [while True: ...] *)
Fixpoint while_true (fuel : nat) (number limit : Z)
    (line : option string) (size : Z) (leftdata : option string) (w : world)
  : option (outcome * world) :=
  match fuel with
  | O => None
  | S fuel =>
      match while_size fuel limit line size leftdata w with
      | None => None
      | Some (Return w) => Some (AtEnd, w)
      | Some (Next (line, size, leftdata, w)) =>
          match getch w with
          | None => Some (Waiting, w)
          | Some (inp, w) =>
              if Ascii.eqb inp space then
                while_true fuel number limit line number leftdata w
              else if Ascii.eqb inp cr then
                while_true fuel number limit line 1 leftdata w
              else Some (Quit, w)
          end
      end
  end.

Definition more (fuel : nat) (w : world) (number : Z) : option (outcome * world) :=
  let number := if number =? 0 then term_lines - 1 else number in
  let size := number in
  let limit := term_cols in
  let leftdata := None in
  while_true fuel number limit None size leftdata w.

End more.

(** Two results of [while line: ...] that differ at most in [leftdata]. *)
Definition same_lines
    (r1 r2 : option (string * Z * option string * world)) : Prop :=
  match r1, r2 with
  | None, None => True
  | Some (line1, size1, _, w1), Some (line2, size2, _, w2) =>
      line1 = line2 /\ size1 = size2 /\ w1 = w2
  | _, _ => False
  end.

(** Two results of [while size: ...] that differ at most in [line] and
    [leftdata]. *)
Definition same_screen
    (r1 r2 : option (flow (option string * Z * option string * world))) : Prop :=
  match r1, r2 with
  | None, None => True
  | Some (Return w1), Some (Return w2) => w1 = w2
  | Some (Next (_, size1, _, w1)), Some (Next (_, size2, _, w2)) =>
      size1 = size2 /\ w1 = w2
  | _, _ => False
  end.

(** The pieces that [while line: ...] prints for [line] when the screen
    quota does not stop it: [wrap] is applied to what is left until
    nothing is left.  [fuel] bounds the number of pieces. *)
Fixpoint pieces (wrap : string -> Z -> string * string) (fuel : nat) (limit : Z)
    (line : string) : list string :=
  match fuel with
  | O => []
  | S fuel =>
      if truthy line then
        let '(wrapped, line) := wrap line limit in
        wrapped :: pieces wrap fuel limit line
      else []
  end.

(** The pieces of all the lines, in order; no line has more pieces than
    characters when [wrap] leaves less than it is given. *)
Definition all_pieces (wrap : string -> Z -> string * string) (limit : Z)
    (lines : list string) : list string :=
  concat (map (fun line => pieces wrap (String.length line) limit line) lines).

(** [wrap] leaves less than it is given, at the width [limit]. *)
Definition shrinks (wrap : string -> Z -> string * string) (limit : Z) : Prop :=
  forall line : string,
    truthy line = true ->
    (String.length (snd (wrap line limit)) < String.length line)%nat.

(** Modelled from the spec: [textproc.wrap.Wrap] is imported by [more] and
    is not among the sources; the spec gives it as "a text-wrapping
    function wrap(line, width) -> (wrappedChunk, remainder)".  The chunk
    is the first [width] characters of the line and the remainder is the
    rest of it. *)
Definition wrap_at (line : string) (width : Z) : string * string :=
  let n := Z.to_nat width in
  (String.substring 0 n line, String.substring n (String.length line - n) line).

End Page.

(** * Properties *)

(** ** Slices *)

Section SliceFacts.
Context {A : Type}.
Implicit Types (l v : list A) (c : Z).

(** [l[:-c]] with [0 < c]: all but the last [c] elements. *)
Lemma upto_neg l c :
  0 < c -> Slice.upto l (- c) = take (length l - Z.to_nat c) l.
Proof.
  intros Hc. unfold Slice.upto, Slice.stop_index.
  destruct (Z.ltb_spec (- c) 0) as [_ | ?]; [ | lia ].
  f_equal. lia.
Qed.

Lemma assign_upto_neg l c v :
  0 < c -> Slice.assign_upto l (- c) v = v ++ drop (length l - Z.to_nat c) l.
Proof.
  intros Hc. unfold Slice.assign_upto, Slice.stop_index.
  destruct (Z.ltb_spec (- c) 0) as [_ | ?]; [ | lia ].
  do 2 f_equal. lia.
Qed.

(** [l[:c]] with [0 <= c]: the first [min c (len l)] elements. *)
Lemma upto_nonneg l c :
  0 <= c -> Slice.upto l c = take (Z.to_nat (Z.min c (Z.of_nat (length l)))) l.
Proof.
  intros Hc. unfold Slice.upto, Slice.stop_index.
  destruct (Z.ltb_spec c 0) as [? | _]; [ lia | reflexivity ].
Qed.

Lemma upto_length l c : 0 <= c -> Z.of_nat (length (Slice.upto l c)) <= c.
Proof. intros Hc. rewrite upto_nonneg, length_take by done. lia. Qed.

Lemma upto_all l c : Z.of_nat (length l) <= c -> Slice.upto l c = l.
Proof.
  intros Hc. rewrite upto_nonneg by lia. apply take_ge. lia.
Qed.

Lemma upto_zero l : Slice.upto l 0 = [].
Proof.
  rewrite upto_nonneg by lia.
  now replace (Z.to_nat (Z.min 0 (Z.of_nat (length l)))) with 0%nat by lia.
Qed.

End SliceFacts.

(** ** FifoBuffer *)

Section FifoBufferFacts.
Context {A : Type}.
Implicit Types (self : Buffer.FifoBuffer A) (data d : list A) (ds : list (list A)).

Lemma filter_zero self data :
  Buffer.size self = 0 -> Buffer.filter self data = (data, self).
Proof. intros H. unfold Buffer.filter. now rewrite H. Qed.

(** With a positive capacity and a factory of empty lists, [filter]
    splits the extended window at the overflow. *)
Lemma filter_split self data :
  0 < Buffer.size self -> Buffer.creator self tt = [] ->
  Buffer.filter self data =
    (take (Buffer.overflow self data) (Buffer.buffer self ++ data),
     Buffer.set_buffer self (drop (Buffer.overflow self data) (Buffer.buffer self ++ data))).
Proof.
  intros Hs Hc. unfold Buffer.filter, Buffer.overflow.
  destruct (Z.eqb_spec (Buffer.size self) 0) as [? | _]; [ lia | ].
  cbn [Buffer.set_buffer Buffer.buffer Buffer.size Buffer.creator Buffer._create_buffer].
  set (c := Buffer.buffer self ++ data).
  destruct (Z.gtb_spec (Z.of_nat (length c)) (Buffer.size self)) as [Hgt | Hle].
  - rewrite upto_neg, assign_upto_neg, Hc by done. reflexivity.
  - rewrite Hc. replace (length c - Z.to_nat (Buffer.size self))%nat with 0%nat by lia.
    reflexivity.
Qed.

Lemma filter_size self data :
  Buffer.size (snd (Buffer.filter self data)) = Buffer.size self.
Proof.
  unfold Buffer.filter. destruct (_ =? _); [ done | ].
  cbn [Buffer.set_buffer Buffer.buffer Buffer.size]. now destruct (_ >? _).
Qed.

Lemma filter_creator self data :
  Buffer.creator (snd (Buffer.filter self data)) = Buffer.creator self.
Proof.
  unfold Buffer.filter. destruct (_ =? _); [ done | ].
  cbn [Buffer.set_buffer Buffer.buffer Buffer.size]. now destruct (_ >? _).
Qed.

Lemma filter_list_instance self data :
  Buffer.list_instance self -> Buffer.list_instance (snd (Buffer.filter self data)).
Proof.
  unfold Buffer.list_instance. now rewrite filter_size, filter_creator.
Qed.

(** After [filter] the window holds at most [size] elements. *)
Lemma filter_bounded self data :
  0 < Buffer.size self -> Buffer.creator self tt = [] ->
  Z.of_nat (length (Buffer.buffer (snd (Buffer.filter self data)))) <= Buffer.size self.
Proof.
  intros Hs Hc. rewrite filter_split by done. cbn.
  rewrite length_drop. unfold Buffer.overflow. lia.
Qed.

(** Two successive calls are one call on the concatenation. *)
Lemma filter_app self d1 d2 :
  Buffer.list_instance self ->
  Buffer.filter self (d1 ++ d2) =
    (fst (Buffer.filter self d1) ++ fst (Buffer.filter (snd (Buffer.filter self d1)) d2),
     snd (Buffer.filter (snd (Buffer.filter self d1)) d2)).
Proof.
  intros [Hs Hc].
  destruct (Z.eq_dec (Buffer.size self) 0) as [H0 | Hne].
  - now rewrite !filter_zero.
  - rewrite (filter_split self d1), (filter_split self (d1 ++ d2)) by (done || lia).
    cbn [fst snd]. rewrite filter_split by (cbn; done || lia).
    unfold Buffer.overflow.
    cbn [fst snd Buffer.set_buffer Buffer.buffer Buffer.size Buffer.creator].
    set (b := Buffer.buffer self). set (s := Z.to_nat (Buffer.size self)).
    set (k1 := (length (b ++ d1) - s)%nat).
    assert (k1 <= length (b ++ d1))%nat as Hk1 by lia.
    rewrite <- (drop_app_le (b ++ d1) d2 k1 Hk1), <- (take_app_le (b ++ d1) d2 k1 Hk1).
    rewrite <- (assoc_L (++) b d1 d2). set (c := b ++ d1 ++ d2).
    rewrite drop_drop, take_take_drop, length_drop.
    assert (length c = length (b ++ d1) + length d2)%nat as Hlen
      by (subst c; rewrite !length_app; lia).
    replace (k1 + (length c - k1 - s))%nat with (length c - s)%nat by lia.
    reflexivity.
Qed.

Lemma filter_within self data :
  Buffer.list_instance self -> Buffer.within (snd (Buffer.filter self data)).
Proof.
  intros [Hs Hc]. unfold Buffer.within. rewrite filter_size. intros Hpos.
  now apply filter_bounded.
Qed.

Lemma filter_nil self :
  Buffer.list_instance self -> Buffer.within self -> Buffer.filter self [] = ([], self).
Proof.
  intros [Hs Hc] Hb.
  destruct (Z.eq_dec (Buffer.size self) 0) as [H0 | Hne].
  - now rewrite filter_zero.
  - rewrite filter_split by (done || lia). unfold Buffer.overflow, Buffer.within in *.
    rewrite app_nil_r.
    replace (length (Buffer.buffer self) - Z.to_nat (Buffer.size self))%nat
      with 0%nat by lia.
    now destruct self.
Qed.

(** One call per element is one call on the whole batch. *)
Lemma filter_elementwise d : forall self,
  Buffer.list_instance self -> Buffer.within self ->
  (concat (fst (Buffer.run self (map (fun x => [x]) d))),
   snd (Buffer.run self (map (fun x => [x]) d))) = Buffer.filter self d.
Proof.
  induction d as [ | x d IH ]; intros self Hself Hb.
  - cbn [map Buffer.run fst snd concat]. now rewrite filter_nil.
  - change (x :: d) with ([x] ++ d) at 3. rewrite (filter_app self [x] d Hself).
    cbn [map Buffer.run].
    pose proof (filter_list_instance self [x] Hself) as Hself1.
    pose proof (filter_within self [x] Hself) as Hb1.
    destruct (Buffer.filter self [x]) as [r1 self1]. cbn [fst snd] in *.
    specialize (IH self1 Hself1 Hb1).
    destruct (Buffer.run self1 (map (fun x => [x]) d)) as [outs self2].
    cbn [fst snd concat] in *.
    now rewrite <- IH.
Qed.

(** What the caller gets from one call, with the window before and
    after it. *)
Lemma filter_lossless self data :
  Buffer.list_instance self -> Buffer.within self ->
  fst (Buffer.filter self data) ++ Buffer.get_buffer (snd (Buffer.filter self data)) =
  Buffer.get_buffer self ++ data.
Proof.
  intros [Hs Hc] Hb. unfold Buffer.get_buffer. rewrite filter_size.
  destruct (Z.eq_dec (Buffer.size self) 0) as [H0 | Hne].
  - rewrite filter_zero by done. cbn [fst snd]. rewrite H0, upto_zero.
    now rewrite app_nil_r.
  - rewrite (upto_all (Buffer.buffer self)) by (apply Hb; lia).
    rewrite upto_all by (apply filter_bounded; done || lia).
    rewrite filter_split by (done || lia). cbn [fst snd Buffer.set_buffer Buffer.buffer].
    apply take_drop.
Qed.

Lemma run_lossless ds : forall self,
  Buffer.list_instance self -> Buffer.within self ->
  Buffer.aggregate (Buffer.run self ds) = Buffer.get_buffer self ++ concat ds.
Proof.
  unfold Buffer.aggregate.
  induction ds as [ | d ds IH ]; intros self Hself Hb.
  - cbn. now rewrite app_nil_r.
  - cbn [Buffer.run concat].
    pose proof (filter_lossless self d Hself Hb) as Hstep.
    pose proof (filter_list_instance self d Hself) as Hself1.
    pose proof (filter_within self d Hself) as Hb1.
    destruct (Buffer.filter self d) as [res self1]. cbn [fst snd] in *.
    specialize (IH self1 Hself1 Hb1).
    destruct (Buffer.run self1 ds) as [outs self2]. cbn [fst snd concat] in *.
    rewrite <- (assoc_L (++)), IH, (assoc_L (++)), Hstep. now rewrite <- (assoc_L (++)).
Qed.

Lemma init_list_instance (size0 : Z) :
  Buffer.list_instance (Buffer.__init__ size0 (@Buffer.list_factory A)).
Proof. split; cbn; [ lia | reflexivity ]. Qed.

Lemma init_within (size0 : Z) :
  Buffer.within (Buffer.__init__ size0 (@Buffer.list_factory A)).
Proof. unfold Buffer.within. cbn. lia. Qed.

Lemma run_list_instance ds : forall self,
  Buffer.list_instance self -> Buffer.list_instance (snd (Buffer.run self ds)).
Proof.
  induction ds as [ | d ds IH ]; intros self Hself; [ done | ].
  cbn [Buffer.run].
  pose proof (filter_list_instance self d Hself) as Hself1.
  destruct (Buffer.filter self d) as [res self1]. cbn [snd] in Hself1.
  specialize (IH self1 Hself1).
  now destruct (Buffer.run self1 ds) as [outs self2].
Qed.

Lemma run_within ds : forall self,
  Buffer.list_instance self -> Buffer.within self -> Buffer.within (snd (Buffer.run self ds)).
Proof.
  induction ds as [ | d ds IH ]; intros self Hself Hb; [ done | ].
  cbn [Buffer.run].
  pose proof (filter_list_instance self d Hself) as Hself1.
  pose proof (filter_within self d Hself) as Hb1.
  destruct (Buffer.filter self d) as [res self1]. cbn [snd] in Hself1, Hb1.
  specialize (IH self1 Hself1 Hb1).
  now destruct (Buffer.run self1 ds) as [outs self2].
Qed.

End FifoBufferFacts.


(** ** FifoBuffer: the properties of the specification *)

Section FifoBufferProperties.
Context {A : Type}.
Implicit Types (self : Buffer.FifoBuffer A) (data d : list A) (ds : list (list A)).

(** C1, lossless concatenation: for a buffer constructed with any size and
    the factory [list], and any sequence of [filter] calls with inputs
    [ds], everything returned by the calls, in order, followed by
    [get_buffer()] after the last call, is the concatenation of the inputs,
    in order. *)
Theorem lossless_concatenation (size0 : Z) ds :
  let '(outs, self) := Buffer.run (Buffer.__init__ size0 Buffer.list_factory) ds in
  concat outs ++ Buffer.get_buffer self = concat ds.
Proof.
  pose proof (run_lossless ds _ (init_list_instance size0) (init_within size0)) as H.
  unfold Buffer.aggregate in H.
  destruct (Buffer.run _ ds) as [outs self]. cbn [fst snd] in H.
  rewrite H. unfold Buffer.get_buffer, Slice.upto, Buffer.__init__, Buffer._create_buffer.
  cbn [Buffer.buffer Buffer.creator]. unfold Buffer.list_factory. now rewrite take_nil.
Qed.

(** C2, eviction step: with a positive capacity and a factory of empty
    lists, one [filter(data)] call appends [data] to the window; if the
    window is then longer than the capacity, the call returns its first
    [overflow = len - capacity] elements, in order, and the window becomes
    its last [capacity] elements; otherwise the call returns an empty list
    and the window keeps everything.  With capacity 2, [filter([1,2,3,4,5])]
    on a new buffer returns [[1,2,3]] and leaves [get_buffer() == [4,5]]. *)
Theorem eviction_step self data :
  0 < Buffer.size self ->
  Buffer.creator self tt = [] ->
  let contents := Buffer.buffer self ++ data in
  let capacity := Z.to_nat (Buffer.size self) in
  let '(res, self') := Buffer.filter self data in
  Buffer.size self' = Buffer.size self /\
  Buffer.creator self' = Buffer.creator self /\
  (Z.of_nat (length contents) > Buffer.size self ->
     res = take (length contents - capacity) contents /\
     Buffer.buffer self' = drop (length contents - capacity) contents /\
     length (Buffer.buffer self') = capacity) /\
  (Z.of_nat (length contents) <= Buffer.size self ->
     res = [] /\ Buffer.buffer self' = contents) /\
  (let '(res, fresh) := Buffer.filter (Buffer.__init__ 2 Buffer.list_factory) [1; 2; 3; 4; 5] in
   res = [1; 2; 3] /\ Buffer.get_buffer fresh = [4; 5]).
Proof.
  intros Hs Hc contents capacity.
  rewrite filter_split by done. unfold Buffer.overflow. fold contents. fold capacity.
  cbn [Buffer.set_buffer Buffer.size Buffer.creator Buffer.buffer].
  repeat split.
  - rewrite length_drop. lia.
  - replace (length contents - capacity)%nat with 0%nat by lia. reflexivity.
  - replace (length contents - capacity)%nat with 0%nat by lia. reflexivity.
Qed.

(** C3, bound invariant: for every capacity [C >= 0], after a [filter] call
    [get_buffer()] has at most [C] elements; and when [C > 0] (the factory
    making empty lists) the window itself has at most [C] elements. *)
Theorem bound_invariant self data :
  0 <= Buffer.size self ->
  let C := Buffer.size self in
  let self' := snd (Buffer.filter self data) in
  Buffer.size self' = C /\
  Z.of_nat (length (Buffer.get_buffer self')) <= C /\
  (0 < C -> Buffer.creator self tt = [] ->
     Z.of_nat (length (Buffer.buffer self')) <= C).
Proof.
  intros Hs C self'. subst C self'. split; [ apply filter_size | split ].
  - unfold Buffer.get_buffer. rewrite filter_size. now apply upto_length.
  - intros Hpos Hc. now apply filter_bounded.
Qed.

(** C8, negative size: a buffer constructed with size [- s] is the buffer
    constructed with size [s], and with size [|s|]; so every sequence of
    [filter] and [get_buffer] calls gives the same results and the same
    final state on both.  Size [-3] is size [3]. *)
Theorem negative_size_normalization (s : Z) (creator0 : unit -> list A)
    (cs : list (Buffer.call A)) :
  Buffer.__init__ (- s) creator0 = Buffer.__init__ s creator0 /\
  Buffer.__init__ s creator0 = Buffer.__init__ (Z.abs s) creator0 /\
  Buffer.exec (Buffer.__init__ (- s) creator0) cs = Buffer.exec (Buffer.__init__ s creator0) cs /\
  Buffer.exec (Buffer.__init__ (- 3) creator0) cs = Buffer.exec (Buffer.__init__ 3 creator0) cs.
Proof.
  assert (Buffer.__init__ (- s) creator0 = Buffer.__init__ s creator0) as H.
  { unfold Buffer.__init__. cbn. now rewrite Z.abs_opp. }
  repeat split.
  - exact H.
  - unfold Buffer.__init__. cbn. f_equal. lia.
  - now rewrite H.
Qed.

(** C6, incremental equivalence: for a buffer constructed with any size
    and the factory [list], in the state any [filter] calls have left it
    in, one [filter] call per element of [d] and one call on [d] give
    the same aggregate (everything returned, then [get_buffer()]); so do
    the two calls [filter(d1); filter(d2)] and the call
    [filter(d1 + d2)].  The elements returned and the final instance are
    the same too. *)
Theorem incremental_equivalence (size0 : Z) (history : list (list A)) (d d1 d2 : list A) :
  let self := snd (Buffer.run (Buffer.__init__ size0 Buffer.list_factory) history) in
  let one_by_one := Buffer.run self (map (fun x => [x]) d) in
  let batch := Buffer.run self [d] in
  let two_calls := Buffer.run self [d1; d2] in
  let one_call := Buffer.run self [d1 ++ d2] in
  Buffer.aggregate one_by_one = Buffer.aggregate batch /\
  Buffer.aggregate two_calls = Buffer.aggregate one_call /\
  concat (fst one_by_one) = concat (fst batch) /\ snd one_by_one = snd batch /\
  concat (fst two_calls) = concat (fst one_call) /\ snd two_calls = snd one_call.
Proof.
  intros self.
  assert (Buffer.list_instance self) as Hself
    by apply run_list_instance, init_list_instance.
  assert (Buffer.within self) as Hb
    by (apply run_within; [ apply init_list_instance | apply init_within ]).
  pose proof (filter_elementwise d self Hself Hb) as He.
  pose proof (filter_app self d1 d2 Hself) as Ha.
  cbn zeta. unfold Buffer.aggregate. cbn [Buffer.run].
  destruct (Buffer.run self (map (fun x => [x]) d)) as [outs selfn].
  destruct (Buffer.filter self d) as [res selfb].
  destruct (Buffer.filter self (d1 ++ d2)) as [res12 self12].
  destruct (Buffer.filter self d1) as [res1 self1]. cbn [fst snd] in Ha.
  destruct (Buffer.filter self1 d2) as [res2 self2].
  cbn [fst snd concat] in *. rewrite !app_nil_r.
  injection He as -> ->. injection Ha as -> ->.
  done.
Qed.

(** C4, zero capacity: a buffer constructed with capacity 0, whatever the
    factory, returns from [filter(x)] the input [x] and stays as it is;
    [get_buffer()] returns an empty list, after any calls.  On the store,
    the value returned is the object passed in and no object is changed. *)
Theorem zero_capacity_pass_through (creator0 : unit -> list A) (x : list A)
    (cs : list (Buffer.call A))
    (creator1 : Store.store A -> Store.ref * Store.store A) (h h' : Store.store A)
    (xref : Store.ref) :
  let self := Buffer.__init__ 0 creator0 in
  Buffer.filter self x = (x, self) /\
  Buffer.get_buffer self = [] /\
  Buffer.exec self cs =
    (map (fun c => match c with Buffer.Filter data => data | Buffer.GetBuffer => [] end) cs,
     self) /\
  (let obj := fst (Store.__init__ 0 creator1 h) in
   Store.filter obj xref h' = (xref, obj, h')).
Proof.
  intros self.
  assert (Buffer.get_buffer self = []) as Hg by apply upto_zero.
  repeat split.
  - exact Hg.
  - induction cs as [ | [data | ] cs IH ]; cbn [Buffer.exec map].
    + reflexivity.
    + rewrite filter_zero by reflexivity. now rewrite IH.
    + now rewrite IH, Hg.
  - unfold Store.__init__, Store._create_buffer. cbn [Store.creator Store.size].
    now destruct (creator1 h).
Qed.

End FifoBufferProperties.

(** ** FifoBuffer on the store *)

Section StoreFacts.
Context {A : Type}.
Implicit Types (h : Store.store A) (r : Store.ref) (v : list A).

Lemma deref_alloc_old h v r :
  (r < length h)%nat -> Store.deref (snd (Store.alloc h v)) r = Store.deref h r.
Proof. intros Hr. unfold Store.deref, Store.alloc. cbn [snd]. now rewrite lookup_app_l. Qed.

Lemma deref_alloc_new h v :
  Store.deref (snd (Store.alloc h v)) (fst (Store.alloc h v)) = v.
Proof.
  unfold Store.deref, Store.alloc. cbn [fst snd].
  now rewrite lookup_app_r, Nat.sub_diag by lia.
Qed.

Lemma deref_mutate_same h r v :
  (r < length h)%nat -> Store.deref (Store.mutate h r v) r = v.
Proof. intros Hr. unfold Store.deref, Store.mutate. now rewrite list_lookup_insert_eq. Qed.

Lemma deref_mutate_other h r r' v :
  r <> r' -> Store.deref (Store.mutate h r v) r' = Store.deref h r'.
Proof. intros Hr. unfold Store.deref, Store.mutate. now rewrite list_lookup_insert_ne. Qed.

Lemma length_mutate h r v : length (Store.mutate h r v) = length h.
Proof. apply length_insert. Qed.

(** The store model and the value model agree on the constructor. *)
Lemma init_refines (size0 : Z) h :
  let '(self, h') := Store.__init__ size0 Store.list_factory h in
  Store.value_of self h' = Buffer.__init__ size0 Buffer.list_factory /\
  (Store.buffer self < length h')%nat.
Proof.
  unfold Store.__init__, Store._create_buffer, Store.list_factory, Store.alloc.
  cbn [Store.creator Store.size]. split.
  - unfold Store.value_of, Buffer.__init__, Buffer._create_buffer, Store.deref.
    cbn [Store.size Store.buffer Buffer.size Buffer.creator].
    now rewrite lookup_app_r, Nat.sub_diag by lia.
  - cbn [Store.buffer]. rewrite length_app. cbn. lia.
Qed.

(** The store model and the value model agree on [filter]: when the
    factory is [list], the value of the object returned and the value of
    the instance after the call are those that [Buffer.filter] gives on
    the values before the call. *)
Lemma filter_refines (self : Store.FifoBuffer A) (data : Store.ref) h :
  Store.creator self = Store.list_factory ->
  (Store.buffer self < length h)%nat ->
  let '(res, self', h') := Store.filter self data h in
  Buffer.filter (Store.value_of self h) (Store.deref h data) =
    (Store.deref h' res, Store.value_of self' h').
Proof.
  intros Hc Hb. unfold Store.filter, Buffer.filter.
  cbn [Store.value_of Buffer.size Buffer.buffer Buffer.set_buffer Buffer._create_buffer
       Buffer.creator].
  destruct (Store.size self =? 0); [ reflexivity | ].
  set (b := Store.buffer self) in *.
  set (c := Store.deref h b ++ Store.deref h data).
  rewrite deref_mutate_same by done.
  set (h1 := Store.mutate h b c).
  assert (length h1 = length h) as Hl1 by apply length_mutate.
  unfold Store._create_buffer. rewrite Hc. unfold Store.list_factory.
  destruct (Z.of_nat (length c) >? Store.size self).
  - unfold Store.alloc at 1 2. cbn [fst snd].
    set (h3 := (h1 ++ [Slice.upto c (- Store.size self)]) ++ [[]]).
    assert (Store.deref h3 b = c) as Hb3.
    { subst h3. unfold Store.deref. rewrite !lookup_app_l by (rewrite ?length_app; lia).
      subst h1. fold (Store.deref (Store.mutate h b c) b). now apply deref_mutate_same. }
    assert (Store.deref h3 (length (h1 ++ [Slice.upto c (- Store.size self)])) = [])
      as Hv3.
    { subst h3. unfold Store.deref. now rewrite lookup_app_r, Nat.sub_diag by lia. }
    assert (Store.deref h3 (length h1) = Slice.upto c (- Store.size self)) as Hr3.
    { subst h3. unfold Store.deref.
      rewrite lookup_app_l by (rewrite length_app; cbn; lia).
      now rewrite lookup_app_r, Nat.sub_diag by lia. }
    rewrite Hb3, Hv3.
    rewrite deref_mutate_other by (subst b; lia).
    rewrite Hr3. unfold Store.value_of. cbn [Store.size Store.buffer].
    fold b. rewrite deref_mutate_same; [ reflexivity | ].
    subst h3. rewrite !length_app. lia.
  - unfold Store.alloc. cbn [fst snd]. unfold Store.value_of, Buffer.list_factory.
    fold b. f_equal.
    + unfold Store.deref. now rewrite lookup_app_r, Nat.sub_diag by lia.
    + f_equal. unfold Store.deref. rewrite lookup_app_l by lia.
      subst h1. fold (Store.deref (Store.mutate h b c) b).
      symmetry. now apply deref_mutate_same.
Qed.

(** C7, get_buffer snapshot: for every instance (capacity not negative,
    [buffer] an object of the store), [get_buffer()] returns a new list
    object whose value is the first [min(capacity, len(contents))] elements
    of the window; the attributes of the instance ([size], [creator],
    [buffer]) are as before, and every object of the store, the window
    among them, has the value it had. *)
Theorem get_buffer_snapshot (self : Store.FifoBuffer A) h :
  0 <= Store.size self ->
  (Store.buffer self < length h)%nat ->
  let contents := Store.deref h (Store.buffer self) in
  let capacity := Store.size self in
  let '(res, self', h') := Store.get_buffer self h in
  Store.deref h' res =
    take (Z.to_nat (Z.min capacity (Z.of_nat (length contents)))) contents /\
  (length h <= res)%nat /\
  res <> Store.buffer self /\
  self' = self /\
  (forall r, (r < length h)%nat -> h' !! r = h !! r) /\
  Store.deref h' (Store.buffer self') = contents /\
  Store.deref h' res = Buffer.get_buffer (Store.value_of self h).
Proof.
  intros Hs Hb contents capacity. unfold Store.get_buffer.
  pose proof (deref_alloc_new h (Slice.upto contents capacity)) as Hnew.
  pose proof (deref_alloc_old h (Slice.upto contents capacity) _ Hb) as Hold.
  unfold Store.alloc in *. cbn [fst snd] in *. fold contents capacity.
  repeat split.
  - rewrite Hnew. now apply upto_nonneg.
  - lia.
  - lia.
  - intros r Hr. now apply lookup_app_l.
  - exact Hold.
  - exact Hnew.
Qed.

End StoreFacts.

(** ** copy *)

Section CopyFacts.
Implicit Types (srcFile : Fileutils.reader) (dstFile : Fileutils.writer).

(** The loop, one pass unrolled: it is left at a [read] that raises, or
    at the first [read] that returns no byte, and not before. *)
Lemma copy_loop_eq (bufsize : Z) srcFile dstFile :
  Fileutils.copy_loop bufsize srcFile dstFile =
    match Fileutils.read srcFile bufsize with
    | inl e => (Some e, (srcFile, dstFile))
    | inr ([], srcFile') => (None, (srcFile', dstFile))
    | inr (b :: data, srcFile') =>
        Fileutils.copy_loop bufsize srcFile' (Fileutils.write dstFile (b :: data))
    end.
Proof.
  simp copy_loop. unfold Fileutils.inspect.
  assert (forall p (e : Fileutils.read srcFile bufsize = p),
    Fileutils.copy_loop_unfold_clause_1 bufsize srcFile (exist _ p e) dstFile =
    match p with
    | inl e => (Some e, (srcFile, dstFile))
    | inr ([], srcFile') => (None, (srcFile', dstFile))
    | inr (b :: data, srcFile') =>
        Fileutils.copy_loop bufsize srcFile' (Fileutils.write dstFile (b :: data))
    end) as H.
  { intros [ e0 | [[ | b data] srcFile'] ] e; reflexivity. }
  apply H.
Qed.

(** The sizes with which [read] raises nothing. *)
Lemma read_ok srcFile (n : Z) :
  - 1 <= n <= Fileutils.ssize_max ->
  Fileutils.read srcFile n =
    inr (if n =? - 1 then Fileutils.rest srcFile
         else take (Z.to_nat n) (Fileutils.rest srcFile),
         {| Fileutils.r_bytes := Fileutils.r_bytes srcFile;
            Fileutils.r_pos :=
              Fileutils.r_pos srcFile +
              length (if n =? - 1 then Fileutils.rest srcFile
                      else take (Z.to_nat n) (Fileutils.rest srcFile)) |}).
Proof.
  intros Hn. unfold Fileutils.read, Fileutils.fits_index, Fileutils.ssize_min,
    Fileutils.ssize_max in *.
  destruct (Z.leb_spec (- 9223372036854775808) n); [ | lia ].
  destruct (Z.leb_spec n 9223372036854775807); [ | lia ].
  cbn [andb negb]. destruct (Z.ltb_spec n (- 1)); [ lia | reflexivity ].
Qed.

(** The sizes with which [read] raises, and what it raises. *)
Lemma read_raises srcFile (n : Z) :
  n < - 1 \/ Fileutils.ssize_max < n ->
  Fileutils.read srcFile n =
    inl (if (Fileutils.ssize_min <=? n) && (n <=? Fileutils.ssize_max)
         then Fileutils.ValueError else Fileutils.OverflowError).
Proof.
  intros Hn. unfold Fileutils.read, Fileutils.fits_index.
  destruct ((Fileutils.ssize_min <=? n) && (n <=? Fileutils.ssize_max)) eqn:E;
    cbn [negb]; [ | reflexivity ].
  apply andb_prop in E as [_ E]. apply Z.leb_le in E.
  destruct (Z.ltb_spec n (- 1)); [ reflexivity | lia ].
Qed.

Lemma rest_read srcFile srcFile' (n : Z) (data : list byte) :
  Fileutils.read srcFile n = inr (data, srcFile') ->
  Fileutils.rest srcFile = data ++ Fileutils.rest srcFile'.
Proof.
  unfold Fileutils.read. destruct (negb (Fileutils.fits_index n)); [ discriminate | ].
  destruct (n <? - 1); [ discriminate | ].
  intros [= <- <-].
  remember (if n =? - 1 then Fileutils.rest srcFile
            else take (Z.to_nat n) (Fileutils.rest srcFile)) as data eqn:Hd.
  unfold Fileutils.rest at 2. cbn [Fileutils.r_bytes Fileutils.r_pos].
  rewrite <- drop_drop. fold (Fileutils.rest srcFile).
  set (l := Fileutils.rest srcFile) in *. subst data.
  destruct (n =? - 1).
  - now rewrite drop_all, app_nil_r.
  - rewrite length_take.
    destruct (Nat.le_ge_cases (Z.to_nat n) (length l)) as [Hle | Hge].
    + rewrite Nat.min_l by done. now rewrite take_drop.
    + rewrite Nat.min_r by done. now rewrite drop_all, app_nil_r, take_ge.
Qed.


Lemma read_pos srcFile srcFile' (n : Z) (data : list byte) :
  0 < n ->
  Fileutils.read srcFile n = inr (data, srcFile') ->
  data = take (Z.to_nat n) (Fileutils.rest srcFile) /\
  Fileutils.rest srcFile' = drop (Z.to_nat n) (Fileutils.rest srcFile).
Proof.
  intros Hn Hread. pose proof (rest_read _ _ _ _ Hread) as Hr.
  assert (data = take (Z.to_nat n) (Fileutils.rest srcFile)) as Hd.
  { unfold Fileutils.read in Hread.
    destruct (negb (Fileutils.fits_index n)); [ discriminate | ].
    destruct (n <? - 1); [ discriminate | ].
    destruct (Z.eqb_spec n (- 1)); [ lia | ]. now injection Hread as <- _. }
  split; [ exact Hd | ].
  rewrite Hd in Hr. rewrite <- (take_drop (Z.to_nat n) (Fileutils.rest srcFile)) in Hr at 1.
  now apply app_inv_head in Hr.
Qed.

Lemma loop_body_shorter (bufsize : Z) (st st' : Fileutils.reader * Fileutils.writer) :
  Fileutils.next_pass bufsize st' st ->
  (length (Fileutils.rest (fst st')) < length (Fileutils.rest (fst st)))%nat.
Proof.
  unfold Fileutils.next_pass, Fileutils.loop_body.
  destruct (Fileutils.read (fst st) bufsize) as [ e | [[ | b data] srcFile'] ] eqn:E;
    [ discriminate | discriminate | ].
  intros [= <-]. cbn [fst]. eapply Fileutils.read_shorter, E.
Qed.

(** Enough fuel: more passes than bytes left to read. *)
Lemma loop_fuel_enough (bufsize : Z) (fuel : nat) :
  forall st : Fileutils.reader * Fileutils.writer,
  (length (Fileutils.rest (fst st)) < fuel)%nat ->
  Fileutils.loop_fuel fuel bufsize st =
    Some (Fileutils.copy_loop bufsize (fst st) (snd st)).
Proof.
  induction fuel as [ | fuel IH ]; intros [srcFile dstFile] Hlt; [ lia | ].
  cbn [Fileutils.loop_fuel fst snd] in *. rewrite copy_loop_eq.
  destruct (Fileutils.read srcFile bufsize) as [ e | [[ | b data] srcFile'] ] eqn:E;
    [ reflexivity | reflexivity | ].
  rewrite IH; [ reflexivity | ].
  cbn [fst]. pose proof (Fileutils.read_shorter _ _ _ _ _ E). lia.
Qed.

Lemma loop_acc (bufsize : Z) (st : Fileutils.reader * Fileutils.writer) :
  Acc (Fileutils.next_pass bufsize) st.
Proof.
  remember (length (Fileutils.rest (fst st))) as m eqn:Hm. revert st Hm.
  induction m as [m IH] using lt_wf_ind. intros st ->.
  constructor. intros st' Hpass.
  eapply IH; [ eapply loop_body_shorter, Hpass | reflexivity ].
Qed.




(** C10, termination of the loop of [copy]: with [bufsize > 0], every
    pass of the loop that does not leave it takes [bufsize] bytes, or
    all that is left when that is less, and at least one, off what is left
    to read; so no state of the loop starts an infinite sequence of
    passes.  The loop defined by recursion on the length left is total,
    and its result is the one the loop reaches within one pass more than
    there are bytes left. *)
Theorem copy_terminates (bufsize : Z) (st : Fileutils.reader * Fileutils.writer) :
  0 < bufsize ->
  (forall st', Fileutils.next_pass bufsize st' st ->
     Fileutils.rest (fst st') = drop (Z.to_nat bufsize) (Fileutils.rest (fst st)) /\
     (length (Fileutils.rest (fst st')) < length (Fileutils.rest (fst st)))%nat) /\
  Acc (Fileutils.next_pass bufsize) st /\
  Fileutils.loop_fuel (S (length (Fileutils.rest (fst st)))) bufsize st =
    Some (Fileutils.copy_loop bufsize (fst st) (snd st)).
Proof.
  intros Hb. split; [ | split ].
  - intros st' Hpass. split; [ | eapply loop_body_shorter, Hpass ].
    unfold Fileutils.next_pass, Fileutils.loop_body in Hpass.
    destruct (Fileutils.read (fst st) bufsize) as [ e | [[ | b data] srcFile'] ] eqn:E;
      [ discriminate | discriminate | ].
    injection Hpass as <-. cbn [fst].
    exact (proj2 (read_pos _ _ _ _ Hb E)).
  - apply loop_acc.
  - apply loop_fuel_enough. lia.
Qed.

End CopyFacts.

(** ** more *)

Section MoreFacts.
Local Open Scope string_scope.

Section AnyWrap.
Variable wrap : string -> Z -> string * string.

(** What [while line: ...] prints and how far it counts does not depend
    on [leftdata]. *)
Lemma while_line_leftdata (fuel : nat) (limit : Z) :
  forall (line : string) (size : Z) (leftdata leftdata' : option string) (w : Page.world),
  Page.same_lines (Page.while_line wrap fuel limit line size leftdata w)
                  (Page.while_line wrap fuel limit line size leftdata' w).
Proof.
  induction fuel as [ | fuel IH ]; intros line size leftdata leftdata' w;
    cbn [Page.while_line]; [ exact I | ].
  destruct (Page.truthy line); [ | cbn; done ].
  destruct (wrap line limit) as [wrapped line'].
  destruct (size - 1 =? 0)%Z; [ cbn; done | apply IH ].
Qed.

(** [while size: ...] does not depend on what [line] and [leftdata] hold
    when it starts: the line kept in [leftdata] is never used. *)
Lemma while_size_leftdata (fuel : nat) (limit : Z) :
  forall (line line' : option string) (size : Z)
         (leftdata leftdata' : option string) (w : Page.world),
  Page.same_screen (Page.while_size wrap fuel limit line size leftdata w)
                   (Page.while_size wrap fuel limit line' size leftdata' w).
Proof.
  induction fuel as [ | fuel IH ]; intros line line' size leftdata leftdata' w;
    cbn [Page.while_size]; [ exact I | ].
  destruct (size =? 0)%Z; [ cbn; done | ].
  assert (forall (line1 : string) (w1 : Page.world) (a b : option string),
    Page.same_screen
      match Page.while_line wrap fuel limit line1 size a w1 with
      | None => None
      | Some (line2, size2, leftdata2, w2) =>
          Page.while_size wrap fuel limit (Some line2) size2 leftdata2 w2
      end
      match Page.while_line wrap fuel limit line1 size b w1 with
      | None => None
      | Some (line2, size2, leftdata2, w2) =>
          Page.while_size wrap fuel limit (Some line2) size2 leftdata2 w2
      end) as Hstep.
  { intros line1 w1 a b.
    pose proof (while_line_leftdata fuel limit line1 size a b w1) as Hl.
    unfold Page.same_lines in Hl.
    destruct (Page.while_line wrap fuel limit line1 size a w1)
      as [ [[[l1 s1] d1] w1'] | ];
    destruct (Page.while_line wrap fuel limit line1 size b w1)
      as [ [[[l2 s2] d2] w2'] | ];
      try contradiction; [ | exact I ].
    destruct Hl as (-> & -> & ->). apply IH. }
  destruct (Page.truthy_opt leftdata), (Page.truthy_opt leftdata');
    destruct (Page.readline w) as [line1 w1];
    (destruct (Page.truthy line1); cbn [negb]; [ apply Hstep | cbn; done ]).
Qed.

(** The same for the whole pager loop: whatever [leftdata] holds, [more]
    prints what it prints when [leftdata] is [None]. *)
Lemma while_true_leftdata (fuel : nat) (number limit : Z) :
  forall (line line' : option string) (size : Z)
         (leftdata leftdata' : option string) (w : Page.world),
  Page.while_true wrap fuel number limit line size leftdata w =
  Page.while_true wrap fuel number limit line' size leftdata' w.
Proof.
  induction fuel as [ | fuel IH ]; intros line line' size leftdata leftdata' w;
    cbn [Page.while_true]; [ reflexivity | ].
  pose proof (while_size_leftdata fuel limit line line' size leftdata leftdata' w) as Hs.
  unfold Page.same_screen in Hs.
  destruct (Page.while_size wrap fuel limit line size leftdata w)
    as [ [ [[[l1 s1] d1] w1] | w1 ] | ];
  destruct (Page.while_size wrap fuel limit line' size leftdata' w)
    as [ [ [[[l2 s2] d2] w2] | w2 ] | ];
    try contradiction; try reflexivity.
  - destruct Hs as (-> & ->).
    destruct (Page.getch w2) as [ [inp w3] | ]; [ | reflexivity ].
    destruct (Ascii.eqb inp Page.space); [ apply IH | ].
    destruct (Ascii.eqb inp Page.cr); [ apply IH | reflexivity ].
  - now rewrite Hs.
Qed.

End AnyWrap.

(** C5 fails on the code.  The source holds the lines ["abcdef\n"] and
    ["xyz\n"], the terminal is 3 columns wide and a screen is one line.
    [more] prints ["abc"] and waits; at the key (space, or return) it reads
    the next line over the remainder ["def\n"] it had kept in [leftdata],
    prints ["xyz"], and at the next key it returns at the end of the
    source: ["def\n"] is never printed (nor is the ["\n"] left of the
    second line).  This does not depend on the wrapping function: for any
    [wrap], the loop of [more] does what it does with [leftdata] empty. *)
Theorem more_drops_rest_of_line :
  let line1 := "abcdef" ++ String Page.lf "" in
  let line2 := "xyz" ++ String Page.lf "" in
  let w keys := {| Page.data := [line1; line2]; Page.keys := keys; Page.printed := [] |} in
  let w' := {| Page.data := []; Page.keys := []; Page.printed := ["abc"; "xyz"] |} in
  Page.more Page.wrap_at 24 3 8 (w [Page.space; Page.space]) 1 = Some (Page.AtEnd, w') /\
  Page.more Page.wrap_at 24 3 8 (w [Page.cr; Page.cr]) 1 = Some (Page.AtEnd, w') /\
  Page.wrap_at line1 3 = ("abc", "def" ++ String Page.lf "") /\
  (forall (wrap : string -> Z -> string * string) (fuel : nat) (number limit size : Z)
          (line leftdata : option string) (w0 : Page.world),
     Page.while_true wrap fuel number limit line size leftdata w0 =
     Page.while_true wrap fuel number limit line size None w0).
Proof.
  cbv zeta. split; [ | split; [ | split ] ].
  - vm_compute. reflexivity.
  - vm_compute. reflexivity.
  - vm_compute. reflexivity.
  - intros wrap fuel number limit size line leftdata w0. apply while_true_leftdata.
Qed.

End MoreFacts.

(** * Further properties of the code *)

(** ** FifoBuffer *)

Section FifoBufferMore.
Context {A : Type}.
Implicit Types (self : Buffer.FifoBuffer A) (data d : list A) (ds : list (list A)).

(** Any number of calls is one call on the concatenation of their
    inputs. *)
Lemma run_as_filter ds : forall self,
  Buffer.list_instance self -> Buffer.within self ->
  (concat (fst (Buffer.run self ds)), snd (Buffer.run self ds)) =
  Buffer.filter self (concat ds).
Proof.
  induction ds as [ | d ds IH ]; intros self Hself Hb.
  - cbn [Buffer.run fst snd concat]. now rewrite filter_nil.
  - cbn [concat]. rewrite (filter_app self d (concat ds) Hself).
    cbn [Buffer.run].
    pose proof (filter_list_instance self d Hself) as Hself1.
    pose proof (filter_within self d Hself) as Hb1.
    destruct (Buffer.filter self d) as [r1 self1]. cbn [fst snd] in *.
    specialize (IH self1 Hself1 Hb1).
    destruct (Buffer.run self1 ds) as [outs self2].
    cbn [fst snd concat] in *.
    now rewrite <- IH.
Qed.

Lemma reachable_list_instance (size0 : Z) (history : list (list A)) :
  Buffer.list_instance (snd (Buffer.run (Buffer.__init__ size0 Buffer.list_factory) history)).
Proof. apply run_list_instance, init_list_instance. Qed.

Lemma reachable_within (size0 : Z) (history : list (list A)) :
  Buffer.within (snd (Buffer.run (Buffer.__init__ size0 Buffer.list_factory) history)).
Proof. apply run_within; [ apply init_list_instance | apply init_within ]. Qed.

(** X1, the cut of the input into calls does not matter: for a buffer made
    with the factory [list], in any state that [filter] calls have left it
    in, the calls [filter(d)] for [d] in [ds] return together, and leave
    behind, what the one call [filter(d1 + ... + dn)] returns and leaves
    behind. *)
Theorem calls_as_one_call (size0 : Z) (history ds : list (list A)) :
  let self := snd (Buffer.run (Buffer.__init__ size0 Buffer.list_factory) history) in
  concat (fst (Buffer.run self ds)) = fst (Buffer.filter self (concat ds)) /\
  snd (Buffer.run self ds) = snd (Buffer.filter self (concat ds)).
Proof.
  intros self.
  pose proof (run_as_filter ds self (reachable_list_instance size0 history)
                (reachable_within size0 history)) as H.
  destruct (Buffer.filter self (concat ds)) as [res self'].
  now injection H as -> ->.
Qed.

(** X2, the window is the tail of the history: after any calls on a new
    buffer made with size [size0] and the factory [list], [get_buffer()]
    is the last [min(|size0|, n)] of the [n] elements received, and what
    the calls have returned is all the elements before those. *)
Theorem window_is_tail (size0 : Z) ds :
  let received := concat ds in
  let capacity := Z.to_nat (Z.abs size0) in
  let '(outs, self) := Buffer.run (Buffer.__init__ size0 Buffer.list_factory) ds in
  concat outs = take (length received - capacity) received /\
  Buffer.get_buffer self = drop (length received - capacity) received /\
  length (Buffer.get_buffer self) = Nat.min capacity (length received).
Proof.
  intros received capacity.
  pose proof (run_as_filter ds _ (init_list_instance size0) (init_within size0)) as H.
  destruct (Buffer.run _ ds) as [outs self]. cbn [fst snd] in H.
  assert (concat outs = take (length received - capacity) received /\
          Buffer.get_buffer self = drop (length received - capacity) received) as [Ho Hg].
  { destruct (Z.eq_dec size0 0) as [-> | Hne].
    - rewrite filter_zero in H by reflexivity. injection H as -> ->.
      fold received. subst capacity. cbn [Z.abs Z.to_nat].
      rewrite Nat.sub_0_r, take_ge, drop_all by lia. split; [ done | apply upto_zero ].
    - rewrite filter_split in H by (cbn; done || lia). injection H as -> ->.
      unfold Buffer.overflow, Buffer.get_buffer.
      cbn [Buffer.__init__ Buffer.set_buffer Buffer.buffer Buffer.size Buffer.creator
           Buffer._create_buffer Buffer.list_factory app].
      fold received. fold capacity. split; [ done | ].
      apply upto_all. rewrite length_drop. lia. }
  split; [ exact Ho | split; [ exact Hg | ] ].
  rewrite Hg, length_drop. lia.
Qed.

(** X3, a full window is a queue: when the window holds [size > 0]
    elements (the factory making empty lists), [filter(data)] returns as
    many elements as it receives, the oldest first, and the window stays
    full; when [data] is not longer than the window, what is returned is
    the first [len(data)] elements of the window. *)
Theorem full_window_fifo self data :
  0 < Buffer.size self ->
  Buffer.creator self tt = [] ->
  Z.of_nat (length (Buffer.buffer self)) = Buffer.size self ->
  let '(res, self') := Buffer.filter self data in
  length res = length data /\
  Z.of_nat (length (Buffer.buffer self')) = Buffer.size self /\
  res ++ Buffer.buffer self' = Buffer.buffer self ++ data /\
  (length data <= length (Buffer.buffer self) ->
     res = take (length data) (Buffer.buffer self))%nat.
Proof.
  intros Hs Hc Hfull. rewrite filter_split by done. unfold Buffer.overflow.
  cbn [Buffer.set_buffer Buffer.buffer]. rewrite length_app.
  replace (length (Buffer.buffer self) + length data - Z.to_nat (Buffer.size self))%nat
    with (length data) by lia.
  split; [ | split; [ | split ] ].
  - rewrite length_take, length_app. lia.
  - rewrite length_drop, length_app. lia.
  - apply take_drop.
  - intros Hle. now apply take_app_le.
Qed.

(** X4, an input that fills the window: when [data] has at least
    [size > 0] elements (the factory making empty lists), [filter(data)]
    returns the whole window followed by all of [data] but its last [size]
    elements, and the window becomes the last [size] elements of
    [data]. *)
Theorem long_input_replaces_window self data :
  0 < Buffer.size self ->
  Buffer.creator self tt = [] ->
  Buffer.size self <= Z.of_nat (length data) ->
  let keep := Z.to_nat (Buffer.size self) in
  let '(res, self') := Buffer.filter self data in
  res = Buffer.buffer self ++ take (length data - keep) data /\
  Buffer.buffer self' = drop (length data - keep) data /\
  length (Buffer.buffer self') = keep.
Proof.
  intros Hs Hc Hlong keep. rewrite filter_split by done. unfold Buffer.overflow.
  cbn [Buffer.set_buffer Buffer.buffer]. rewrite length_app. fold keep.
  replace (length (Buffer.buffer self) + length data - keep)%nat
    with (length (Buffer.buffer self) + (length data - keep))%nat by lia.
  rewrite take_app_add, drop_app_add.
  split; [ done | split; [ done | ] ].
  rewrite length_drop. lia.
Qed.

(** X5, the capacity and the factory are fixed by the constructor: after
    any [filter] and [get_buffer] calls, with any factory, [size] is
    [|size0|], not negative, and [creator] is the factory given. *)
Theorem capacity_fixed (size0 : Z) (creator0 : unit -> list A) (cs : list (Buffer.call A)) :
  let self := snd (Buffer.exec (Buffer.__init__ size0 creator0) cs) in
  Buffer.size self = Z.abs size0 /\
  0 <= Buffer.size self /\
  Buffer.creator self = creator0.
Proof.
  assert (forall self0 : Buffer.FifoBuffer A,
    Buffer.size (snd (Buffer.exec self0 cs)) = Buffer.size self0 /\
    Buffer.creator (snd (Buffer.exec self0 cs)) = Buffer.creator self0) as Hkeep.
  { induction cs as [ | [data | ] cs IH ]; intros self0; cbn [Buffer.exec].
    - done.
    - pose proof (filter_size self0 data) as Hsz.
      pose proof (filter_creator self0 data) as Hcr.
      destruct (Buffer.filter self0 data) as [res self1]. cbn [snd] in Hsz, Hcr.
      specialize (IH self1). destruct (Buffer.exec self1 cs) as [outs self2].
      cbn [snd] in *. now rewrite <- Hsz, <- Hcr.
    - specialize (IH self0). now destruct (Buffer.exec self0 cs) as [outs self2]. }
  intros self. destruct (Hkeep (Buffer.__init__ size0 creator0)) as [Hsz Hcr].
  subst self. rewrite Hsz, Hcr. cbn. repeat split; lia.
Qed.

(** X6, what [filter] touches on the store: with a capacity other than 0
    and the factory [list], [filter(data)] returns a list object made
    during the call, which is neither the window nor [data] nor any other
    object of the caller; and it changes the value of no object of the
    store but the window: the list [data] passed in is left as it is. *)
Theorem filter_store_frame (self : Store.FifoBuffer A) (data : Store.ref)
    (h : Store.store A) :
  Store.creator self = Store.list_factory ->
  Store.size self <> 0 ->
  (Store.buffer self < length h)%nat ->
  let '(res, self', h') := Store.filter self data h in
  self' = self /\
  (length h <= res < length h')%nat /\
  res <> Store.buffer self /\
  (forall r : Store.ref, (r < length h)%nat -> r <> Store.buffer self -> h' !! r = h !! r) /\
  ((data < length h)%nat -> data <> Store.buffer self ->
     Store.deref h' data = Store.deref h data).
Proof.
  intros Hc Hs Hb. unfold Store.filter.
  destruct (Z.eqb_spec (Store.size self) 0) as [? | _]; [ done | ].
  set (b := Store.buffer self) in *.
  set (h1 := Store.mutate h b (Store.deref h b ++ Store.deref h data)).
  assert (length h1 = length h) as Hl1 by apply length_mutate.
  assert (forall r : Store.ref, r <> b -> h1 !! r = h !! r) as Hh1.
  { intros r Hr. subst h1. unfold Store.mutate. now apply list_lookup_insert_ne. }
  unfold Store._create_buffer. rewrite Hc. unfold Store.list_factory, Store.alloc.
  destruct (Z.of_nat (length (Store.deref h1 b)) >? Store.size self).
  - set (v := Slice.upto (Store.deref h1 b) (- Store.size self)).
    set (h3 := (h1 ++ [v]) ++ [[]]).
    set (w := Slice.assign_upto (Store.deref h3 b) (- Store.size self)
                (Store.deref h3 (length (h1 ++ [v])))).
    assert (forall r : Store.ref, (r < length h)%nat -> r <> b ->
              Store.mutate h3 b w !! r = h !! r) as Hframe.
    { intros r Hr Hrb. unfold Store.mutate.
      rewrite list_lookup_insert_ne by done. subst h3.
      rewrite !lookup_app_l by (rewrite ?length_app; lia). now apply Hh1. }
    split; [ done | split; [ | split; [ lia | split; [ exact Hframe | ] ] ] ].
    + rewrite length_mutate. subst h3. rewrite !length_app. cbn. lia.
    + intros Hd Hdb. unfold Store.deref. now rewrite Hframe.
  - assert (forall r : Store.ref, (r < length h)%nat -> r <> b ->
              (h1 ++ [[]]) !! r = h !! r) as Hframe.
    { intros r Hr Hrb. rewrite lookup_app_l by lia. now apply Hh1. }
    split; [ done | split; [ | split; [ lia | split; [ exact Hframe | ] ] ] ].
    + rewrite length_app. cbn. lia.
    + intros Hd Hdb. unfold Store.deref. now rewrite Hframe.
Qed.

End FifoBufferMore.

(** ** copy *)

Section CopyMore.
Implicit Types (srcFile : Fileutils.reader) (dstFile : Fileutils.writer).


(** X7, the chunk sizes that are not positive, and those too large: with
    [bufsize = 0] [copy] writes nothing and reads nothing, whatever the
    source holds; with [bufsize = -1] it writes the whole source in one
    [write], and makes no [write] when the source is empty; with
    [bufsize < -1] the first [read] raises [ValueError] ([OverflowError]
    below [-2^63]) and with [bufsize >= 2^63] it raises [OverflowError]:
    the exception leaves [copy] with nothing written. *)
Theorem copy_degenerate_bufsize (src : list byte) :
  Fileutils.copy src (Some 0) = (None, []) /\
  (exists srcFile' : Fileutils.reader,
     Fileutils.copy_loop 0 (Fileutils.open_rb src) Fileutils.open_wb =
       (None, (srcFile', [])) /\
     Fileutils.rest srcFile' = src) /\
  Fileutils.copy src (Some (- 1)) =
    (None, match src with [] => [] | _ :: _ => [src] end) /\
  (forall bufsize : Z, bufsize < - 1 ->
     Fileutils.copy src (Some bufsize) =
       (Some (if Fileutils.ssize_min <=? bufsize then Fileutils.ValueError
              else Fileutils.OverflowError), [])) /\
  (forall bufsize : Z, Fileutils.ssize_max < bufsize ->
     Fileutils.copy src (Some bufsize) = (Some Fileutils.OverflowError, [])).
Proof.
  assert (Fileutils.copy_loop 0 (Fileutils.open_rb src) Fileutils.open_wb =
          (None, ({| Fileutils.r_bytes := src; Fileutils.r_pos := 0 |}, []))) as H0.
  { rewrite copy_loop_eq. reflexivity. }
  split; [ | split; [ | split; [ | split ] ] ].
  - unfold Fileutils.copy. cbn [default from_option id]. now rewrite H0.
  - eexists. split; [ exact H0 | ]. unfold Fileutils.rest. apply drop_0.
  - unfold Fileutils.copy. cbn [default from_option id].
    rewrite copy_loop_eq.
    assert (Fileutils.read (Fileutils.open_rb src) (- 1) =
            inr (src, {| Fileutils.r_bytes := src; Fileutils.r_pos := length src |})) as ->.
    { unfold Fileutils.read, Fileutils.rest. cbn. now rewrite drop_0. }
    destruct src as [ | b src ]; [ reflexivity | ].
    rewrite copy_loop_eq.
    assert (Fileutils.read
              {| Fileutils.r_bytes := b :: src; Fileutils.r_pos := length (b :: src) |}
              (- 1) =
            inr ([], {| Fileutils.r_bytes := b :: src;
                        Fileutils.r_pos := length (b :: src) |})) as ->.
    { unfold Fileutils.read, Fileutils.rest.
      cbn [Fileutils.fits_index Fileutils.r_bytes Fileutils.r_pos negb andb Z.leb Z.ltb
           Z.eqb Z.compare Pos.compare Pos.compare_cont Fileutils.ssize_min
           Fileutils.ssize_max Pos.eqb Z.opp].
      rewrite drop_all. cbn [length]. now rewrite Nat.add_0_r. }
    reflexivity.
  - intros bufsize Hneg. unfold Fileutils.copy. cbn [default from_option id].
    rewrite copy_loop_eq, read_raises by lia.
    destruct (Z.leb_spec Fileutils.ssize_min bufsize) as [Hge | Hlt].
    + destruct (Z.leb_spec bufsize Fileutils.ssize_max) as [ | Hgt ]; [ reflexivity | ].
      unfold Fileutils.ssize_max in Hgt. lia.
    + reflexivity.
  - intros bufsize Hbig. unfold Fileutils.copy. cbn [default from_option id].
    rewrite copy_loop_eq, read_raises by lia.
    destruct (Z.leb_spec bufsize Fileutils.ssize_max) as [ | _ ]; [ lia | ].
    now rewrite andb_false_r.
Qed.



End CopyMore.

(** ** read_data and write_out *)

Section ReadWriteFacts.
Implicit Types (src : Fileutils.reader) (dst : Fileutils.writer).

Lemma split_lines_concat (bs : list byte) : concat (Fileutils.split_lines bs) = bs.
Proof.
  induction bs as [ | b bs IH ]; [ done | ]. cbn [Fileutils.split_lines].
  destruct (Byte.eqb b Fileutils.newline).
  - cbn. now rewrite IH.
  - destruct (Fileutils.split_lines bs) as [ | line lines ]; cbn in *; now rewrite <- IH.
Qed.

Lemma split_lines_nonempty (bs : list byte) :
  Forall (fun line => line <> []) (Fileutils.split_lines bs).
Proof.
  induction bs as [ | b bs IH ]; [ constructor | ]. cbn [Fileutils.split_lines].
  destruct (Byte.eqb b Fileutils.newline).
  - now constructor.
  - destruct (Fileutils.split_lines bs) as [ | line lines ].
    + now repeat constructor.
    + inversion IH; subst. now constructor.
Qed.

Lemma split_lines_nil (bs : list byte) : Fileutils.split_lines bs = [] -> bs = [].
Proof. intros H. rewrite <- (split_lines_concat bs). now rewrite H. Qed.

Lemma concat_nonempty (lines : list (list byte)) :
  Forall (fun line => line <> []) lines -> lines <> [] -> concat lines <> [].
Proof.
  intros Hne Hl. destruct lines as [ | line lines ]; [ done | ].
  inversion Hne; subst. cbn. now destruct line.
Qed.

(** What [readlines] takes for a positive [hint]: a prefix of the lines,
    not empty when there are lines, in which the lines before the last
    one do not exceed [hint], and which exceeds [hint] when it is not all
    the lines. *)
Lemma take_lines_spec (hint : Z) (lines : list (list byte)) : forall size : Z,
  size <= hint ->
  let taken := Fileutils.take_lines hint size lines in
  taken `prefix_of` lines /\
  (lines <> [] -> taken <> []) /\
  size + Z.of_nat (length (concat (removelast taken))) <= hint /\
  (taken <> lines -> hint < size + Z.of_nat (length (concat taken))).
Proof.
  induction lines as [ | line lines IH ]; intros size Hsize; cbn [Fileutils.take_lines].
  - cbn. split; [ done | split; [ done | split; [ lia | done ] ] ].
  - cbv zeta. destruct (Z.gtb_spec (Z.of_nat (length line)) (hint - size)) as [Hgt | Hle].
    + split; [ | split; [ done | split ] ].
      * now apply prefix_cons, prefix_nil.
      * cbn. lia.
      * intros _. cbn. rewrite app_nil_r. lia.
    + destruct (IH (size + Z.of_nat (length line)) ltac:(lia)) as (Hp & Hn & Hb & He).
      set (taken := Fileutils.take_lines hint (size + Z.of_nat (length line)) lines) in *.
      split; [ | split; [ done | split ] ].
      * now apply prefix_cons.
      * change (removelast (line :: taken))
          with (match taken with [] => [] | _ :: _ => line :: removelast taken end).
        destruct taken as [ | t taken' ] eqn:E; [ cbn; lia | ].
        cbn [concat]. rewrite length_app. lia.
      * intros Hneq. cbn [concat]. rewrite length_app.
        assert (taken <> lines) as Hneq' by congruence.
        specialize (He Hneq'). lia.
Qed.

(** The hints with which [readlines] raises nothing, and what it returns:
    a prefix of the lines left, and what is left to read after them. *)
Lemma readlines_ok src (hint : Z) :
  Fileutils.ssize_min <= hint <= Fileutils.ssize_max ->
  exists (lines : list (list byte)) (src' : Fileutils.reader),
    Fileutils.readlines src hint = inr (lines, src') /\
    lines = (if hint <=? 0 then Fileutils.split_lines (Fileutils.rest src)
             else Fileutils.take_lines hint 0 (Fileutils.split_lines (Fileutils.rest src))) /\
    lines `prefix_of` Fileutils.split_lines (Fileutils.rest src) /\
    concat lines ++ Fileutils.rest src' = Fileutils.rest src /\
    Fileutils.r_bytes src' = Fileutils.r_bytes src.
Proof.
  intros Hh. unfold Fileutils.readlines, Fileutils.fits_index.
  destruct (Z.leb_spec Fileutils.ssize_min hint); [ | lia ].
  destruct (Z.leb_spec hint Fileutils.ssize_max); [ | lia ].
  cbn [andb negb]. cbv zeta.
  set (lines := if hint <=? 0 then _ else _).
  assert (lines `prefix_of` Fileutils.split_lines (Fileutils.rest src)) as Hp.
  { subst lines. destruct (Z.leb_spec hint 0); [ done | ].
    apply (take_lines_spec hint _ 0). lia. }
  eexists _, _. split; [ reflexivity | split; [ reflexivity | split; [ exact Hp | ] ] ].
  split; [ | reflexivity ].
  destruct Hp as [more Hmore].
  unfold Fileutils.rest at 1. cbn [Fileutils.r_bytes Fileutils.r_pos].
  rewrite <- drop_drop. fold (Fileutils.rest src).
  rewrite <- (split_lines_concat (Fileutils.rest src)) at 1 2.
  rewrite Hmore, concat_app, drop_app_length. reflexivity.
Qed.

Lemma readlines_raises src (hint : Z) :
  hint < Fileutils.ssize_min ->
  Fileutils.readlines src hint = inl Fileutils.OverflowError.
Proof.
  intros Hh. unfold Fileutils.readlines, Fileutils.fits_index.
  destruct (Z.leb_spec Fileutils.ssize_min hint); [ lia | reflexivity ].
Qed.

Lemma contents_write_lines (lines : list (list byte)) : forall dst,
  Fileutils.contents (fold_left Fileutils.write lines dst) =
  Fileutils.contents dst ++ concat lines.
Proof.
  unfold Fileutils.contents, Fileutils.write.
  induction lines as [ | line lines IH ]; intros dst; cbn [fold_left concat].
  - now rewrite app_nil_r.
  - rewrite IH, concat_app. cbn. now rewrite app_nil_r, <- (assoc_L (++)).
Qed.

(** The arguments with which [read_data] raises nothing: in line mode a
    [bs] not below [-2^63], in byte mode a [bs] not below [-1]. *)
Lemma read_data_returns src (is_line_mode : bool) (bs : Z) :
  (if is_line_mode then Fileutils.ssize_min <= bs else - 1 <= bs) ->
  exists (d : Fileutils.data) (src' : Fileutils.reader),
    Fileutils.read_data src is_line_mode bs = inr (d, src') /\
    Fileutils.bytes_of d ++ Fileutils.rest src' = Fileutils.rest src /\
    Fileutils.r_bytes src' = Fileutils.r_bytes src /\
    match d with
    | Fileutils.Lines lines =>
        is_line_mode = true /\
        lines = (if Z.min bs 256 <=? 0 then Fileutils.split_lines (Fileutils.rest src)
                 else Fileutils.take_lines (Z.min bs 256) 0
                        (Fileutils.split_lines (Fileutils.rest src)))
    | Fileutils.Bytes data =>
        is_line_mode = false /\
        data = (if Z.min bs 1048576 =? - 1 then Fileutils.rest src
                else take (Z.to_nat (Z.min bs 1048576)) (Fileutils.rest src))
    end.
Proof.
  intros Hbs. unfold Fileutils.read_data. cbv zeta. destruct is_line_mode.
  - destruct (readlines_ok src (Z.min bs 256)) as (lines & src' & Hr & Hl & _ & Hrest & Hb).
    { unfold Fileutils.ssize_min, Fileutils.ssize_max in *. lia. }
    rewrite Hr. now exists (Fileutils.Lines lines), src'.
  - assert (- 1 <= Z.min bs 1048576 <= Fileutils.ssize_max) as Hok
      by (unfold Fileutils.ssize_max; lia).
    pose proof (read_ok src (Z.min bs 1048576) Hok) as Hr.
    pose proof (rest_read _ _ _ _ Hr) as Hrest.
    rewrite Hr. eexists (Fileutils.Bytes _), _.
    split; [ reflexivity | split; [ now symmetry | now split ] ].
Qed.

(** X10, a read followed by a write moves a prefix: for a file [src]
    opened with ['rb'] and a [bs] with which [read_data] raises nothing
    (in line mode [bs >= -2^63], in byte mode [bs >= -1]),
    [write_out(dst, read_data(src, mode, bs), mode)] raises nothing and
    adds to [dst] exactly the bytes that [read_data] has taken from the
    read position of [src]; what is left to read is the rest, in
    order. *)
Theorem read_then_write_moves_prefix src dst (is_line_mode : bool) (bs : Z) :
  (if is_line_mode then Fileutils.ssize_min <= bs else - 1 <= bs) ->
  exists (d : Fileutils.data) (src' : Fileutils.reader) (dst' : Fileutils.writer),
    Fileutils.read_data src is_line_mode bs = inr (d, src') /\
    Fileutils.bytes_of d ++ Fileutils.rest src' = Fileutils.rest src /\
    Fileutils.r_bytes src' = Fileutils.r_bytes src /\
    Fileutils.write_out dst d is_line_mode = Some dst' /\
    Fileutils.contents dst' = Fileutils.contents dst ++ Fileutils.bytes_of d.
Proof.
  intros Hbs.
  destruct (read_data_returns src is_line_mode bs Hbs) as (d & src' & Hr & Hrest & Hb & Hd).
  destruct d as [data | lines]; destruct Hd as [-> _].
  - exists (Fileutils.Bytes data), src', (Fileutils.write dst data).
    split; [ exact Hr | split; [ exact Hrest | split; [ exact Hb | split; [ reflexivity | ] ] ] ].
    unfold Fileutils.contents, Fileutils.write. rewrite concat_app. cbn.
    now rewrite app_nil_r.
  - exists (Fileutils.Lines lines), src', (fold_left Fileutils.write lines dst).
    split; [ exact Hr | split; [ exact Hrest | split; [ exact Hb | split; [ reflexivity | ] ] ] ].
    apply contents_write_lines.
Qed.

(** X11, byte mode, its cap and its errors: for a file [src] opened with
    ['rb'], [read_data(src, False, bs)] with [bs >= 0] returns the first
    [min(bs, 1048576)] of the bytes left to read (all of them when fewer
    are left), so at most 1048576 bytes; with [bs = -1] the cap does not
    apply: it returns all the bytes left, however many; with [bs < -1] it
    raises [ValueError], and [OverflowError] when [bs < -2^63]. *)
Theorem read_data_byte_mode src (bs : Z) :
  (0 <= bs ->
     exists src' : Fileutils.reader,
       Fileutils.read_data src false bs =
         inr (Fileutils.Bytes (take (Z.to_nat (Z.min bs 1048576)) (Fileutils.rest src)),
              src') /\
       Z.of_nat (length (take (Z.to_nat (Z.min bs 1048576)) (Fileutils.rest src)))
         <= Z.min bs 1048576) /\
  (bs = - 1 ->
     exists src' : Fileutils.reader,
       Fileutils.read_data src false bs = inr (Fileutils.Bytes (Fileutils.rest src), src')) /\
  (bs < - 1 ->
     Fileutils.read_data src false bs =
       inl (if Fileutils.ssize_min <=? bs then Fileutils.ValueError
            else Fileutils.OverflowError)).
Proof.
  split; [ | split ].
  - intros Hbs.
    destruct (read_data_returns src false bs ltac:(cbn; lia)) as (d & src' & Hr & _ & _ & Hd).
    destruct d as [data | lines]; [ | now destruct Hd ].
    destruct Hd as [_ ->]. destruct (Z.eqb_spec (Z.min bs 1048576) (- 1)); [ lia | ].
    exists src'. split; [ exact Hr | rewrite length_take; lia ].
  - intros ->.
    destruct (read_data_returns src false (- 1) ltac:(cbn; lia)) as (d & src' & Hr & _ & _ & Hd).
    destruct d as [data | lines]; [ | now destruct Hd ].
    destruct Hd as [_ ->]. now exists src'.
  - intros Hbs. unfold Fileutils.read_data. cbv zeta.
    replace (Z.min bs 1048576) with bs by lia.
    rewrite read_raises by lia.
    destruct (Z.leb_spec Fileutils.ssize_min bs) as [Hge | Hlt]; [ | reflexivity ].
    destruct (Z.leb_spec bs Fileutils.ssize_max) as [ | Hgt ]; [ reflexivity | ].
    unfold Fileutils.ssize_max in Hgt. lia.
Qed.

(** X12, line mode and its hint: for a file [src] opened with ['rb'],
    [read_data(src, True, bs)] raises [OverflowError] when [bs < -2^63]
    and otherwise returns whole lines, the first ones left to read.  With
    [bs <= 0] it returns all the lines left.  With [bs > 0] the hint is
    [min(bs, 256)]: at least one line is returned when bytes are left,
    the lines before the last one returned do not exceed the hint
    together, and lines are left unread only when those returned exceed
    the hint. *)
Theorem read_data_line_mode src (bs : Z) :
  let left := Fileutils.split_lines (Fileutils.rest src) in
  (bs < Fileutils.ssize_min ->
     Fileutils.read_data src true bs = inl Fileutils.OverflowError) /\
  (Fileutils.ssize_min <= bs ->
     exists (lines : list (list byte)) (src' : Fileutils.reader),
       Fileutils.read_data src true bs = inr (Fileutils.Lines lines, src') /\
       lines `prefix_of` left /\
       (bs <= 0 -> lines = left) /\
       (0 < bs ->
          (Fileutils.rest src <> [] -> lines <> []) /\
          Z.of_nat (length (concat (removelast lines))) <= Z.min bs 256 /\
          (lines <> left -> Z.min bs 256 < Z.of_nat (length (concat lines))))).
Proof.
  intros left. split.
  - intros Hbs. unfold Fileutils.read_data. cbv zeta.
    rewrite readlines_raises; [ reflexivity | ]. unfold Fileutils.ssize_min in *. lia.
  - intros Hbs.
    destruct (readlines_ok src (Z.min bs 256)) as (lines & src' & Hr & Hl & Hp & _).
    { unfold Fileutils.ssize_min, Fileutils.ssize_max in *. lia. }
    exists lines, src'. unfold Fileutils.read_data. cbv zeta. rewrite Hr.
    split; [ reflexivity | split; [ exact Hp | split ] ].
    + intros Hle. rewrite Hl. destruct (Z.leb_spec (Z.min bs 256) 0); [ reflexivity | lia ].
    + intros Hpos. rewrite Hl. destruct (Z.leb_spec (Z.min bs 256) 0); [ lia | ].
      destruct (take_lines_spec (Z.min bs 256) left 0 ltac:(lia)) as (_ & Hn & Hb & He).
      fold left. split; [ | split; [ lia | intros Hneq; specialize (He Hneq); lia ] ].
      intros Hrest. apply Hn. intros Hnil. now apply split_lines_nil in Hnil.
Qed.

(** X13, when [read_data] returns nothing: for a file [src] opened with
    ['rb'] and a [bs] with which [read_data] raises nothing, the data
    returned is empty exactly when no byte is left to read, or in byte
    mode with [bs = 0]; in line mode, and in byte mode with any other
    such [bs], the call returns bytes as long as bytes are left. *)
Theorem read_data_empty_iff src (is_line_mode : bool) (bs : Z) :
  (if is_line_mode then Fileutils.ssize_min <= bs else - 1 <= bs) ->
  exists (d : Fileutils.data) (src' : Fileutils.reader),
    Fileutils.read_data src is_line_mode bs = inr (d, src') /\
    (Fileutils.bytes_of d = [] <->
     Fileutils.rest src = [] \/ (is_line_mode = false /\ bs = 0)).
Proof.
  intros Hbs.
  destruct (read_data_returns src is_line_mode bs Hbs) as (d & src' & Hr & _ & _ & Hd).
  exists d, src'. split; [ exact Hr | ].
  destruct d as [data | lines]; destruct Hd as [-> Hd]; cbn [Fileutils.bytes_of].
  - rewrite Hd. cbn in Hbs. split.
    + intros Hnil. destruct (Fileutils.rest src) as [ | b l ]; [ now left | right ].
      split; [ done | ].
      destruct (Z.eqb_spec (Z.min bs 1048576) (- 1)); [ done | ].
      destruct (Z.to_nat (Z.min bs 1048576)) eqn:E; [ lia | discriminate ].
    + intros [-> | [_ ->]]; [ now destruct (_ =? _); rewrite ?take_nil | reflexivity ].
  - set (left := Fileutils.split_lines (Fileutils.rest src)) in *.
    assert (lines `prefix_of` left /\ (left <> [] -> lines <> [])) as [Hp Hn].
    { rewrite Hd. destruct (Z.leb_spec (Z.min bs 256) 0); [ done | ].
      destruct (take_lines_spec (Z.min bs 256) left 0 ltac:(lia)) as (Hp & Hn & _).
      now split. }
    assert (Forall (fun line => line <> []) lines) as Hne.
    { destruct Hp as [more Hmore]. pose proof (split_lines_nonempty (Fileutils.rest src)) as H.
      fold left in H. rewrite Hmore in H. now apply Forall_app in H as [H _]. }
    split.
    + intros Hnil. left. apply split_lines_nil. fold left.
      destruct (decide (left = [])) as [ | Hl ]; [ done | ].
      now destruct (concat_nonempty lines Hne (Hn Hl)).
    + intros [Hrest | [? _]]; [ | done ].
      destruct Hp as [more Hmore]. subst left. rewrite Hrest in Hmore. cbn in Hmore.
      symmetry in Hmore. apply app_eq_nil in Hmore as [-> _]. reflexivity.
Qed.

End ReadWriteFacts.

(** ** more *)

Section MoreMore.
Variable wrap : string -> Z -> string * string.
Implicit Types (w : Page.world) (line : string) (size limit : Z).

(** [while line: ...] counts [size] down by one for each piece it prints,
    and stops at 0. *)
Lemma while_line_counts (fuel : nat) limit :
  forall line size (leftdata : option string) w line' size' leftdata' w',
  Page.while_line wrap fuel limit line size leftdata w = Some (line', size', leftdata', w') ->
  Z.of_nat (length (Page.printed w')) = Z.of_nat (length (Page.printed w)) + size - size' /\
  size' <= size /\
  (0 < size -> 0 <= size') /\
  Page.keys w' = Page.keys w /\
  Page.data w' = Page.data w.
Proof.
  induction fuel as [ | fuel IH ]; intros line size leftdata w line' size' leftdata' w';
    cbn [Page.while_line]; [ discriminate | ].
  destruct (Page.truthy line).
  - destruct (wrap line limit) as [wrapped rest].
    destruct (Z.eqb_spec (size - 1) 0) as [H0 | Hne].
    + intros [= <- <- <- <-]. cbn. rewrite length_app. cbn.
      repeat split; (done || lia).
    + intros Hrec. apply IH in Hrec as (Hp & Hle & Hpos & Hk & Hd).
      cbn in Hp, Hk, Hd. rewrite length_app in Hp. cbn in Hp.
      repeat split; (done || lia).
  - intros [= <- <- <- <-]. repeat split; (done || lia).
Qed.

(** [while size: ...] from a quota [size >= 0]: when it is left for the
    key, exactly [size] pieces have been printed; at the end of the source
    fewer have. *)
Lemma while_size_counts (fuel : nat) limit :
  forall (line : option string) size (leftdata : option string) w r,
  Page.while_size wrap fuel limit line size leftdata w = Some r ->
  match r with
  | Page.Next (_, size', _, w') =>
      size' = 0 /\ 0 <= size /\
      Z.of_nat (length (Page.printed w')) = Z.of_nat (length (Page.printed w)) + size /\
      Page.keys w' = Page.keys w
  | Page.Return w' =>
      size <> 0 /\
      (0 < size ->
       Z.of_nat (length (Page.printed w')) < Z.of_nat (length (Page.printed w)) + size) /\
      Page.keys w' = Page.keys w
  end.
Proof.
  induction fuel as [ | fuel IH ]; intros line size leftdata w r;
    cbn [Page.while_size]; [ discriminate | ].
  destruct (Z.eqb_spec size 0) as [-> | Hne].
  - intros [= <-]. repeat split; (done || lia).
  - set (ld := snd (if Page.truthy_opt leftdata then (leftdata, None) else (line, leftdata))).
    replace (let '(line0, leftdata0) :=
               if Page.truthy_opt leftdata then (leftdata, None) else (line, leftdata) in
             let '(line1, w0) := Page.readline w in
             if negb (Page.truthy line1) then Some (Page.Return w0)
             else match Page.while_line wrap fuel limit line1 size leftdata0 w0 with
                  | Some (line2, size0, leftdata1, w1) =>
                      Page.while_size wrap fuel limit (Some line2) size0 leftdata1 w1
                  | None => None
                  end)
      with (let '(line1, w0) := Page.readline w in
            if negb (Page.truthy line1) then Some (Page.Return w0)
            else match Page.while_line wrap fuel limit line1 size ld w0 with
                 | Some (line2, size0, leftdata1, w1) =>
                     Page.while_size wrap fuel limit (Some line2) size0 leftdata1 w1
                 | None => None
                 end)
      by (subst ld; now destruct (Page.truthy_opt leftdata)).
    assert (Page.printed (snd (Page.readline w)) = Page.printed w /\
            Page.keys (snd (Page.readline w)) = Page.keys w) as [Hrp Hrk].
    { unfold Page.readline. now destruct (Page.data w). }
    destruct (Page.readline w) as [line1 w0]. cbn [snd] in Hrp, Hrk.
    destruct (Page.truthy line1); cbn [negb].
    + destruct (Page.while_line wrap fuel limit line1 size ld w0)
        as [ [[[line2 size2] ld2] w2] | ] eqn:El; [ | discriminate ].
      apply while_line_counts in El as (Hp & Hle & Hpos & Hk & _).
      rewrite Hrp in Hp. intros Hrec. apply IH in Hrec.
      destruct r as [ [[[l3 size3] ld3] w3] | w3 ].
      * destruct Hrec as (-> & Hs2 & Hp3 & Hk3). repeat split; (congruence || lia).
      * destruct Hrec as (Hs2 & Hp3 & Hk3).
        split; [ done | split; [ | congruence ] ].
        intros Hsz. specialize (Hpos Hsz). assert (0 < size2) as H2 by lia.
        specialize (Hp3 H2). lia.
    + intros [= <-]. split; [ done | split; [ | done ] ].
      intros Hsz. rewrite Hrp. lia.
Qed.

(** X14, the screen quota: when no key comes, a call of [more] that ends
    waiting for a key has printed exactly [number] pieces ([Term().lines()
    - 1] when [number] is 0), and a call that ends at the end of the
    source with a positive quota has printed fewer; [more] does not stop
    for a key when the quota is negative. *)
Theorem more_screen_quota (term_lines term_cols : Z) (fuel : nat) w (number : Z)
    (o : Page.outcome) w' :
  Page.keys w = [] ->
  Page.more wrap term_lines term_cols fuel w number = Some (o, w') ->
  let quota := if number =? 0 then term_lines - 1 else number in
  match o with
  | Page.Waiting =>
      0 <= quota /\
      Z.of_nat (length (Page.printed w')) = Z.of_nat (length (Page.printed w)) + quota
  | Page.AtEnd =>
      quota <> 0 /\
      (0 < quota ->
       Z.of_nat (length (Page.printed w')) < Z.of_nat (length (Page.printed w)) + quota)
  | Page.Quit => False
  end.
Proof.
  intros Hkeys. unfold Page.more. cbv zeta.
  set (quota := if number =? 0 then term_lines - 1 else number).
  destruct fuel as [ | fuel ]; cbn [Page.while_true]; [ discriminate | ].
  destruct (Page.while_size wrap fuel term_cols None quota None w) as [r | ] eqn:E;
    [ | discriminate ].
  apply while_size_counts in E.
  destruct r as [ [[[l1 s1] d1] w1] | w1 ].
  - destruct E as (-> & Hq & Hp & Hk).
    unfold Page.getch. rewrite Hk, Hkeys. intros [= <- <-]. now split.
  - destruct E as (Hq & Hp & Hk). intros [= <- <-]. now split.
Qed.

Lemma truthy_false line : Page.truthy line = false -> line = EmptyString.
Proof. now destruct line. Qed.

Lemma truthy_length line : Page.truthy line = true -> (0 < String.length line)%nat.
Proof. destruct line; [ discriminate | cbn; lia ]. Qed.

(** Fuel beyond the length of the line adds no piece. *)
Lemma pieces_stable limit :
  Page.shrinks wrap limit ->
  forall (f1 f2 : nat) line,
  (String.length line <= f1)%nat -> (String.length line <= f2)%nat ->
  Page.pieces wrap f1 limit line = Page.pieces wrap f2 limit line.
Proof.
  intros Hshrink. induction f1 as [ | f1 IH ]; intros f2 line H1 H2.
  - destruct line; [ | cbn in H1; lia ]. now destruct f2.
  - destruct f2 as [ | f2 ].
    + destruct line; [ reflexivity | cbn in H2; lia ].
    + cbn [Page.pieces]. destruct (Page.truthy line) eqn:Et; [ | reflexivity ].
      pose proof (Hshrink line Et) as Hlt.
      destruct (wrap line limit) as [wrapped rest]. cbn [snd] in Hlt.
      f_equal. apply IH; lia.
Qed.

(** [while line: ...] that the quota does not stop prints all the pieces
    of the line. *)
Lemma while_line_all limit :
  Page.shrinks wrap limit ->
  forall (fuel : nat) line size (leftdata : option string) w,
  (String.length line < fuel)%nat ->
  let ps := Page.pieces wrap (String.length line) limit line in
  size < 0 \/ Z.of_nat (length ps) < size ->
  Page.while_line wrap fuel limit line size leftdata w =
    Some (EmptyString, size - Z.of_nat (length ps), leftdata,
          {| Page.data := Page.data w; Page.keys := Page.keys w;
             Page.printed := Page.printed w ++ ps |}).
Proof.
  intros Hshrink. induction fuel as [ | fuel IH ]; intros line size leftdata w Hfuel ps Hq;
    [ lia | ].
  cbn [Page.while_line]. destruct (Page.truthy line) eqn:Et.
  - pose proof (Hshrink line Et) as Hlt. pose proof (truthy_length line Et) as Hpos.
    assert (ps = fst (wrap line limit)
                 :: Page.pieces wrap (String.length (snd (wrap line limit))) limit
                      (snd (wrap line limit))) as Hps.
    { subst ps. destruct (String.length line) as [ | k ] eqn:Ek; [ lia | ].
      cbn [Page.pieces]. rewrite Et. destruct (wrap line limit) as [wrapped rest].
      cbn [fst snd] in *. f_equal. apply pieces_stable; (done || lia). }
    destruct (wrap line limit) as [wrapped rest]. cbn [fst snd] in *.
    set (ps' := Page.pieces wrap (String.length rest) limit rest) in *.
    rewrite Hps in Hq |- *. cbn [length] in Hq |- *.
    destruct (Z.eqb_spec (size - 1) 0) as [H0 | _]; [ lia | ].
    rewrite IH by (fold ps'; lia). fold ps'. cbn [Page.print Page.data Page.keys Page.printed].
    rewrite <- (assoc_L (++)). do 4 f_equal. lia.
  - apply truthy_false in Et. subst line. subst ps. cbn.
    rewrite app_nil_r, Z.sub_0_r. now destruct w.
Qed.

(** [while size: ...] that the quota does not stop prints all the pieces
    of all the lines left and returns at the end of the source. *)
Lemma while_size_all limit :
  Page.shrinks wrap limit ->
  forall (lines : list string) (fuel : nat) (line : option string) size
         (leftdata : option string) w,
  Page.data w = lines ->
  Forall (fun l => Page.truthy l = true) lines ->
  (length lines + list_sum (map String.length lines) + 1 <= fuel)%nat ->
  size < 0 \/ Z.of_nat (length (Page.all_pieces wrap limit lines)) < size ->
  Page.while_size wrap fuel limit line size leftdata w =
    Some (Page.Return
            {| Page.data := []; Page.keys := Page.keys w;
               Page.printed := Page.printed w ++ Page.all_pieces wrap limit lines |}).
Proof.
  intros Hshrink.
  induction lines as [ | l lines IH ]; intros fuel line size leftdata w Hd Ht Hfuel Hq;
    (destruct fuel as [ | fuel ]; [ cbn in Hfuel; lia | ]); cbn [Page.while_size].
  - destruct (Z.eqb_spec size 0) as [-> | _]; [ cbn in Hq; lia | ].
    unfold Page.readline. rewrite Hd.
    destruct (Page.truthy_opt leftdata); cbn; rewrite app_nil_r;
      destruct w; cbn in *; now subst.
  - unfold Page.all_pieces in *. cbn [map concat length] in *.
    change (list_sum (String.length l :: map String.length lines))
      with (String.length l + list_sum (map String.length lines))%nat in Hfuel.
    rewrite length_app in Hq.
    set (ps := Page.pieces wrap (String.length l) limit l) in *.
    destruct (Z.eqb_spec size 0) as [-> | _]; [ lia | ].
    inversion Ht as [ | ? ? Hl Ht' ]; subst.
    unfold Page.readline. rewrite Hd.
    assert (forall ld : option string,
      (if negb (Page.truthy l) then
         Some (Page.Return {| Page.data := lines; Page.keys := Page.keys w;
                              Page.printed := Page.printed w |})
       else
         match Page.while_line wrap fuel limit l size ld
                 {| Page.data := lines; Page.keys := Page.keys w;
                    Page.printed := Page.printed w |} with
         | Some (line2, size2, leftdata2, w2) =>
             Page.while_size wrap fuel limit (Some line2) size2 leftdata2 w2
         | None => None
         end) =
      Some (Page.Return
              {| Page.data := []; Page.keys := Page.keys w;
                 Page.printed := Page.printed w ++
                   ps ++ concat (map (fun line0 =>
                           Page.pieces wrap (String.length line0) limit line0) lines) |}))
      as Hstep.
    { intros ld. rewrite Hl. cbn [negb].
      pose proof (while_line_all limit Hshrink fuel l size ld
                    {| Page.data := lines; Page.keys := Page.keys w;
                       Page.printed := Page.printed w |} ltac:(lia)) as Hline.
      cbv zeta in Hline. fold ps in Hline. rewrite Hline by lia.
      cbn [Page.data Page.keys Page.printed].
      rewrite (IH fuel) by (cbn [Page.data]; done || lia).
      cbn [Page.keys Page.printed]. now rewrite <- (assoc_L (++)). }
    destruct (Page.truthy_opt leftdata); apply Hstep.
Qed.

(** X15, nothing is lost while the quota is not reached: when [wrap]
    leaves less than it is given and the lines of the source are not
    empty, a call of [more] whose quota is negative, or greater than the
    number of pieces of all the lines, prints every piece of every line, in
    order, and returns at the end of the source without reading a key.
    [fuel] beyond the number of lines and of their characters is
    enough. *)
Theorem more_uninterrupted (term_lines term_cols : Z) (fuel : nat) w (number : Z) :
  Page.shrinks wrap term_cols ->
  Forall (fun l => Page.truthy l = true) (Page.data w) ->
  let quota := if number =? 0 then term_lines - 1 else number in
  let out := Page.all_pieces wrap term_cols (Page.data w) in
  quota < 0 \/ Z.of_nat (length out) < quota ->
  (length (Page.data w) + list_sum (map String.length (Page.data w)) + 2 <= fuel)%nat ->
  Page.more wrap term_lines term_cols fuel w number =
    Some (Page.AtEnd,
          {| Page.data := []; Page.keys := Page.keys w;
             Page.printed := Page.printed w ++ out |}).
Proof.
  intros Hshrink Ht quota out Hq Hfuel. unfold Page.more. cbv zeta. fold quota.
  destruct fuel as [ | fuel ]; [ lia | ]. cbn [Page.while_true].
  rewrite (while_size_all term_cols Hshrink (Page.data w)) by (done || lia).
  reflexivity.
Qed.

Lemma while_true_zero_quota limit (k : nat) :
  forall (fuel : nat) (line leftdata : option string) (lines printed0 : list string),
  (k + 1 < fuel)%nat ->
  Page.while_true wrap fuel 0 limit line 0 leftdata
    {| Page.data := lines; Page.keys := repeat Page.space k; Page.printed := printed0 |} =
  Some (Page.Waiting,
        {| Page.data := lines; Page.keys := []; Page.printed := printed0 |}).
Proof.
  induction k as [ | k IH ]; intros fuel line leftdata lines printed0 Hfuel;
    (destruct fuel as [ | [ | fuel ] ]; [ lia | lia | ]).
  - reflexivity.
  - change (Page.while_true wrap (S (S fuel)) 0 limit line 0 leftdata
              {| Page.data := lines; Page.keys := repeat Page.space (S k);
                 Page.printed := printed0 |})
      with (Page.while_true wrap (S fuel) 0 limit line 0 leftdata
              {| Page.data := lines; Page.keys := repeat Page.space k;
                 Page.printed := printed0 |}).
    apply IH. lia.
Qed.

(** X16, a quota of 0: on a terminal of one line, where [Term().lines() -
    1] is 0, [more] called without [number] prints nothing before the
    first key, and nothing at any space key: after [k] spaces it waits
    for a key with nothing printed and no line read. *)
Theorem more_zero_quota (term_cols : Z) (k fuel : nat) (lines printed0 : list string) :
  (k + 1 < fuel)%nat ->
  Page.more wrap 1 term_cols fuel
    {| Page.data := lines; Page.keys := repeat Page.space k; Page.printed := printed0 |} 0 =
  Some (Page.Waiting,
        {| Page.data := lines; Page.keys := []; Page.printed := printed0 |}).
Proof.
  intros Hfuel. unfold Page.more.
  change (if 0 =? 0 then 1 - 1 else 0) with 0. cbv zeta.
  now apply while_true_zero_quota.
Qed.

(** [while line: ...] ends when [wrap] leaves less than it is given:
    fuel beyond the length of the line is enough. *)
Lemma while_line_returns limit :
  Page.shrinks wrap limit ->
  forall (fuel : nat) line size (leftdata : option string) w,
  (String.length line < fuel)%nat ->
  exists r, Page.while_line wrap fuel limit line size leftdata w = Some r.
Proof.
  intros Hshrink. induction fuel as [ | fuel IH ]; intros line size leftdata w Hfuel;
    [ lia | ].
  cbn [Page.while_line]. destruct (Page.truthy line) eqn:Et; [ | now eexists ].
  pose proof (Hshrink line Et) as Hlt.
  destruct (wrap line limit) as [wrapped rest]. cbn [snd] in Hlt.
  destruct (size - 1 =? 0)%Z; [ now eexists | ].
  apply IH. lia.
Qed.

(** [while size: ...] ends when [wrap] leaves less than it is given: fuel
    beyond the number of lines left and of their characters is enough. *)
Lemma while_size_returns limit :
  Page.shrinks wrap limit ->
  forall (lines : list string) (fuel : nat) (line : option string) size
         (leftdata : option string) w,
  Page.data w = lines ->
  (length lines + list_sum (map String.length lines) + 1 <= fuel)%nat ->
  exists r, Page.while_size wrap fuel limit line size leftdata w = Some r.
Proof.
  intros Hshrink.
  induction lines as [ | l lines IH ]; intros fuel line size leftdata w Hd Hfuel;
    (destruct fuel as [ | fuel ]; [ cbn in Hfuel; lia | ]); cbn [Page.while_size].
  - destruct (size =? 0)%Z; [ now eexists | ].
    unfold Page.readline. rewrite Hd.
    destruct (Page.truthy_opt leftdata); cbn; now eexists.
  - cbn [map length] in Hfuel.
    change (list_sum (String.length l :: map String.length lines))
      with (String.length l + list_sum (map String.length lines))%nat in Hfuel.
    destruct (size =? 0)%Z; [ now eexists | ].
    unfold Page.readline. rewrite Hd.
    assert (forall ld : option string,
      exists r,
      (if negb (Page.truthy l) then
         Some (Page.Return {| Page.data := lines; Page.keys := Page.keys w;
                              Page.printed := Page.printed w |})
       else
         match Page.while_line wrap fuel limit l size ld
                 {| Page.data := lines; Page.keys := Page.keys w;
                    Page.printed := Page.printed w |} with
         | Some (line2, size2, leftdata2, w2) =>
             Page.while_size wrap fuel limit (Some line2) size2 leftdata2 w2
         | None => None
         end) = Some r) as Hstep.
    { intros ld. destruct (Page.truthy l); cbn [negb]; [ | now eexists ].
      destruct (while_line_returns limit Hshrink fuel l size ld
                  {| Page.data := lines; Page.keys := Page.keys w;
                     Page.printed := Page.printed w |} ltac:(lia))
        as [ [[[line2 size2] ld2] w2] Hline ].
      rewrite Hline. apply while_line_counts in Hline as (_ & _ & _ & _ & Hd2).
      apply IH; [ exact Hd2 | lia ]. }
    destruct (Page.truthy_opt leftdata); apply Hstep.
Qed.

(** X17, any other key ends the call: when [wrap] leaves less than it is
    given and the first key to come is neither the space nor the return,
    [more] ends, and it ends in one of two ways: it returns at the end of
    the source without reading the key, or it prints exactly one screen
    ([quota] pieces), reads that key and stops.  It reads no other key and
    does not end waiting.  [fuel] beyond the number of lines and of their
    characters is enough. *)
Theorem more_other_key_quits (term_lines term_cols : Z) (fuel : nat) w (number : Z)
    (key : ascii) (keys : list ascii) :
  Page.shrinks wrap term_cols ->
  Page.keys w = key :: keys ->
  key <> Page.space ->
  key <> Page.cr ->
  (length (Page.data w) + list_sum (map String.length (Page.data w)) + 2 <= fuel)%nat ->
  let quota := if number =? 0 then term_lines - 1 else number in
  exists (o : Page.outcome) w',
    Page.more wrap term_lines term_cols fuel w number = Some (o, w') /\
    match o with
    | Page.AtEnd => Page.keys w' = key :: keys
    | Page.Quit =>
        Page.keys w' = keys /\
        0 <= quota /\
        Z.of_nat (length (Page.printed w')) = Z.of_nat (length (Page.printed w)) + quota
    | Page.Waiting => False
    end.
Proof.
  intros Hshrink Hkeys Hsp Hcr Hfuel. unfold Page.more. cbv zeta.
  set (quota := if number =? 0 then term_lines - 1 else number).
  destruct fuel as [ | fuel ]; [ lia | ]. cbn [Page.while_true].
  destruct (while_size_returns term_cols Hshrink (Page.data w) fuel None quota None w
              eq_refl ltac:(lia)) as [r E].
  rewrite E. apply while_size_counts in E.
  destruct r as [ [[[l1 s1] d1] w1] | w1 ].
  - destruct E as (-> & Hq & Hp & Hk).
    unfold Page.getch. rewrite Hk, Hkeys.
    destruct (Ascii.eqb_spec key Page.space) as [ | _ ]; [ done | ].
    destruct (Ascii.eqb_spec key Page.cr) as [ | _ ]; [ done | ].
    eexists Page.Quit, _. split; [ reflexivity | ]. cbn. now split.
  - destruct E as (_ & _ & Hk). exists Page.AtEnd, w1. split; [ reflexivity | congruence ].
Qed.

End MoreMore.

Lemma substring_length_le (s : string) :
  forall n m : nat, (String.length (String.substring n m s) <= m)%nat.
Proof.
  induction s as [ | c s IH ]; intros n m.
  - destruct n, m; cbn; lia.
  - destruct n as [ | n ]; [ destruct m as [ | m ] | ]; cbn.
    + lia.
    + specialize (IH 0%nat m). lia.
    + apply IH.
Qed.

(** The wrapping that cuts at the width leaves less than it is given when
    the width is positive. *)
Lemma wrap_at_shrinks (width : Z) : 0 < width -> Page.shrinks Page.wrap_at width.
Proof.
  intros Hw line Ht. unfold Page.wrap_at. cbn [snd].
  pose proof (truthy_length line Ht) as Hlen.
  pose proof (substring_length_le line (Z.to_nat width)
                (String.length line - Z.to_nat width)) as Hle.
  lia.
Qed.

(** ** The hypotheses of the properties hold on instances *)

Section Witnesses.

(** [eviction_step] on a window [[7]] of capacity 2 that receives
    [[8, 9]]. *)
Lemma eviction_step_witness :
  let self := {| Buffer.size := 2; Buffer.creator := Buffer.list_factory; Buffer.buffer := [7] |} in
  0 < Buffer.size self /\
  Buffer.creator self tt = [] /\
  fst (Buffer.filter self [8; 9]) = [7] /\
  Buffer.buffer (snd (Buffer.filter self [8; 9])) = [8; 9].
Proof.
  intros self.
  assert (0 < Buffer.size self) as Hs by (cbn; lia).
  assert (Buffer.creator self tt = []) as Hc by reflexivity.
  pose proof (eviction_step self [8; 9] Hs Hc) as H.
  cbv zeta in H. destruct (Buffer.filter self [8; 9]) as [res self'].
  destruct H as (_ & _ & Hover & _).
  destruct Hover as (Hres & Hbuf & _); [ cbn; lia | ].
  split; [ exact Hs | split; [ exact Hc | split; [ exact Hres | exact Hbuf ] ] ].
Defined.

(** [bound_invariant] on a new buffer of capacity 1 that receives
    [[1, 2, 3]]. *)
Lemma bound_invariant_witness :
  let self := Buffer.__init__ 1 (@Buffer.list_factory Z) in
  0 <= Buffer.size self /\
  Z.of_nat (length (Buffer.get_buffer (snd (Buffer.filter self [1; 2; 3])))) <= 1.
Proof.
  intros self.
  assert (0 <= Buffer.size self) as Hs by (cbn; lia).
  split; [ exact Hs | ].
  exact (proj1 (proj2 (bound_invariant self [1; 2; 3] Hs))).
Defined.

(** [get_buffer_snapshot] on a store whose only object is the window
    [[4, 5, 6]], with capacity 2. *)
Lemma get_buffer_snapshot_witness :
  let self := {| Store.size := 2; Store.creator := Store.list_factory; Store.buffer := 0%nat |} in
  let h := [[4; 5; 6]] in
  0 <= Store.size self /\
  (Store.buffer self < length h)%nat /\
  (let '(res, self', h') := Store.get_buffer self h in
   Store.deref h' res = [4; 5] /\ self' = self /\ h' !! 0%nat = Some [4; 5; 6]).
Proof.
  intros self h.
  assert (0 <= Store.size self) as Hs by (cbn; lia).
  assert (Store.buffer self < length h)%nat as Hb by (cbn; lia).
  pose proof (get_buffer_snapshot self h Hs Hb) as H.
  cbv zeta in H. destruct (Store.get_buffer self h) as [[res self'] h'].
  destruct H as (Hres & _ & _ & Hself & Hframe & _).
  split; [ exact Hs | split; [ exact Hb | ] ].
  split; [ exact Hres | split; [ exact Hself | ] ].
  exact (Hframe 0%nat Hb).
Defined.


(** [copy_terminates] on a source of three bytes read two bytes at a
    time. *)
Lemma copy_terminates_witness :
  let st := (Fileutils.open_rb ["a"; "b"; "c"]%byte, Fileutils.open_wb) in
  0 < 2 /\
  Acc (Fileutils.next_pass 2) st /\
  Fileutils.loop_fuel 4 2 st = Some (Fileutils.copy_loop 2 (fst st) (snd st)).
Proof.
  intros st.
  assert (0 < 2) as Hb by lia.
  split; [ exact Hb | ].
  exact (proj2 (copy_terminates 2 st Hb)).
Defined.

(** [full_window_fifo] on the full window [[1, 2]] that receives [[3]]. *)
Lemma full_window_fifo_witness :
  let self := {| Buffer.size := 2; Buffer.creator := Buffer.list_factory;
                 Buffer.buffer := [1; 2] |} in
  0 < Buffer.size self /\
  Buffer.creator self tt = [] /\
  Z.of_nat (length (Buffer.buffer self)) = Buffer.size self /\
  length (fst (Buffer.filter self [3])) = 1%nat.
Proof.
  intros self.
  assert (0 < Buffer.size self) as Hs by (cbn; lia).
  assert (Buffer.creator self tt = []) as Hc by reflexivity.
  assert (Z.of_nat (length (Buffer.buffer self)) = Buffer.size self) as Hf by reflexivity.
  pose proof (full_window_fifo self [3] Hs Hc Hf) as H.
  destruct (Buffer.filter self [3]) as [res self'].
  split; [ exact Hs | split; [ exact Hc | split; [ exact Hf | exact (proj1 H) ] ] ].
Defined.

(** [long_input_replaces_window] on the window [[1, 2]] of capacity 2 that
    receives [[3, 4, 5]]. *)
Lemma long_input_replaces_window_witness :
  let self := {| Buffer.size := 2; Buffer.creator := Buffer.list_factory;
                 Buffer.buffer := [1; 2] |} in
  0 < Buffer.size self /\
  Buffer.creator self tt = [] /\
  Buffer.size self <= Z.of_nat (length [3; 4; 5]) /\
  fst (Buffer.filter self [3; 4; 5]) = [1; 2; 3].
Proof.
  intros self.
  assert (0 < Buffer.size self) as Hs by (cbn; lia).
  assert (Buffer.creator self tt = []) as Hc by reflexivity.
  assert (Buffer.size self <= Z.of_nat (length [3; 4; 5])) as Hl by (cbn; lia).
  pose proof (long_input_replaces_window self [3; 4; 5] Hs Hc Hl) as H.
  cbv zeta in H. destruct (Buffer.filter self [3; 4; 5]) as [res self'].
  split; [ exact Hs | split; [ exact Hc | split; [ exact Hl | exact (proj1 H) ] ] ].
Defined.

(** [filter_store_frame] on a store that holds the window [[1]] and the
    input [[2, 3]], with capacity 1. *)
Lemma filter_store_frame_witness :
  let self := {| Store.size := 1; Store.creator := Store.list_factory;
                 Store.buffer := 0%nat |} in
  let h := [[1]; [2; 3]] in
  Store.creator self = Store.list_factory /\
  Store.size self <> 0 /\
  (Store.buffer self < length h)%nat /\
  (let '(res, self', h') := Store.filter self 1%nat h in
   res <> Store.buffer self /\ h' !! 1%nat = Some [2; 3]).
Proof.
  intros self h.
  assert (Store.creator self = Store.list_factory) as Hc by reflexivity.
  assert (Store.size self <> 0) as Hs by (cbn; lia).
  assert (Store.buffer self < length h)%nat as Hb by (cbn; lia).
  pose proof (filter_store_frame self 1%nat h Hc Hs Hb) as H.
  destruct (Store.filter self 1%nat h) as [[res self'] h'].
  destruct H as (_ & _ & Hres & Hframe & _).
  split; [ exact Hc | split; [ exact Hs | split; [ exact Hb | ] ] ].
  split; [ exact Hres | ].
  exact (Hframe 1%nat ltac:(cbn; lia) ltac:(cbn; lia)).
Defined.

(** [copy_degenerate_bufsize] at [bufsize = -2], [bufsize = -2^63 - 1] and
    [bufsize = 2^63]. *)
Lemma copy_degenerate_bufsize_witness :
  let src := ["a"; "b"]%byte in
  - 2 < - 1 /\
  - 9223372036854775809 < - 1 /\
  Fileutils.ssize_max < 9223372036854775808 /\
  Fileutils.copy src (Some (- 2)) = (Some Fileutils.ValueError, []) /\
  Fileutils.copy src (Some (- 9223372036854775809)) = (Some Fileutils.OverflowError, []) /\
  Fileutils.copy src (Some 9223372036854775808) = (Some Fileutils.OverflowError, []).
Proof.
  intros src.
  assert (- 2 < - 1) as H2 by lia.
  assert (- 9223372036854775809 < - 1) as Hlow by lia.
  assert (Fileutils.ssize_max < 9223372036854775808) as Hbig
    by (unfold Fileutils.ssize_max; lia).
  destruct (copy_degenerate_bufsize src) as (_ & _ & _ & Hneg & Hover).
  split; [ exact H2 | split; [ exact Hlow | split; [ exact Hbig | ] ] ].
  split; [ exact (Hneg (- 2) H2) | ].
  split; [ exact (Hneg (- 9223372036854775809) Hlow) | exact (Hover _ Hbig) ].
Defined.



(** [read_then_write_moves_prefix] in byte mode at [bs = 2]. *)
Lemma read_then_write_moves_prefix_witness :
  let src := Fileutils.open_rb ["a"; "b"; "c"]%byte in
  - 1 <= 2 /\
  exists (d : Fileutils.data) (src' : Fileutils.reader) (dst' : Fileutils.writer),
    Fileutils.read_data src false 2 = inr (d, src') /\
    Fileutils.write_out [["z"%byte]] d false = Some dst' /\
    Fileutils.contents dst' = ["z"%byte] ++ Fileutils.bytes_of d.
Proof.
  intros src.
  assert (- 1 <= 2) as Hbs by lia.
  split; [ exact Hbs | ].
  destruct (read_then_write_moves_prefix src [["z"%byte]] false 2 Hbs)
    as (d & src' & dst' & Hr & _ & _ & Hw & Hc).
  exists d, src', dst'. split; [ exact Hr | split; [ exact Hw | exact Hc ] ].
Defined.

(** [read_data_byte_mode] at [bs = 2], [bs = -1] and [bs = -2]. *)
Lemma read_data_byte_mode_witness :
  let src := Fileutils.open_rb ["a"; "b"; "c"]%byte in
  0 <= 2 /\
  - 2 < - 1 /\
  (exists src' : Fileutils.reader,
     Fileutils.read_data src false 2 = inr (Fileutils.Bytes ["a"; "b"]%byte, src')) /\
  (exists src' : Fileutils.reader,
     Fileutils.read_data src false (- 1) =
       inr (Fileutils.Bytes ["a"; "b"; "c"]%byte, src')) /\
  Fileutils.read_data src false (- 2) = inl Fileutils.ValueError.
Proof.
  intros src.
  assert (0 <= 2) as Hbs by lia.
  assert (- 2 < - 1) as Hneg by lia.
  split; [ exact Hbs | split; [ exact Hneg | ] ].
  split; [ | split ].
  - destruct (proj1 (read_data_byte_mode src 2) Hbs) as (src' & Hr & _).
    exists src'. exact Hr.
  - exact (proj1 (proj2 (read_data_byte_mode src (- 1))) eq_refl).
  - exact (proj2 (proj2 (read_data_byte_mode src (- 2))) Hneg).
Defined.

(** [read_data_line_mode] at [bs = 2] on two lines, and at [bs = -2^63 -
    1]. *)
Lemma read_data_line_mode_witness :
  let src := Fileutils.open_rb ["a"; "b"; Fileutils.newline; "c"]%byte in
  Fileutils.ssize_min <= 2 /\
  0 < 2 /\
  - 9223372036854775809 < Fileutils.ssize_min /\
  (exists (lines : list (list byte)) (src' : Fileutils.reader),
     Fileutils.read_data src true 2 = inr (Fileutils.Lines lines, src') /\
     Z.of_nat (length (concat (removelast lines))) <= Z.min 2 256) /\
  Fileutils.read_data src true (- 9223372036854775809) = inl Fileutils.OverflowError.
Proof.
  intros src.
  assert (Fileutils.ssize_min <= 2) as Hok by (unfold Fileutils.ssize_min; lia).
  assert (0 < 2) as Hbs by lia.
  assert (- 9223372036854775809 < Fileutils.ssize_min) as Hlow
    by (unfold Fileutils.ssize_min; lia).
  split; [ exact Hok | split; [ exact Hbs | split; [ exact Hlow | ] ] ].
  split.
  - destruct (proj2 (read_data_line_mode src 2) Hok) as (lines & src' & Hr & _ & _ & Hpos).
    exists lines, src'. split; [ exact Hr | exact (proj1 (proj2 (Hpos Hbs))) ].
  - exact (proj1 (read_data_line_mode src (- 9223372036854775809)) Hlow).
Defined.

(** [read_data_empty_iff] in line mode at the end of the source. *)
Lemma read_data_empty_iff_witness :
  let src := {| Fileutils.r_bytes := ["a"; "b"]%byte; Fileutils.r_pos := 2 |} in
  Fileutils.ssize_min <= 5 /\
  exists (d : Fileutils.data) (src' : Fileutils.reader),
    Fileutils.read_data src true 5 = inr (d, src') /\
    Fileutils.bytes_of d = [].
Proof.
  intros src.
  assert (Fileutils.ssize_min <= 5) as Hok by (unfold Fileutils.ssize_min; lia).
  split; [ exact Hok | ].
  destruct (read_data_empty_iff src true 5 Hok) as (d & src' & Hr & Hiff).
  exists d, src'. split; [ exact Hr | ].
  apply Hiff. left. reflexivity.
Defined.

(** [more_screen_quota] on one line of two pieces, a screen of one line
    and no key. *)
Lemma more_screen_quota_witness :
  let w := {| Page.data := ["abcdef"%string]; Page.keys := []; Page.printed := [] |} in
  let w' := {| Page.data := []; Page.keys := [];
               Page.printed := ["abc"%string] |} in
  Page.keys w = [] /\
  Page.more Page.wrap_at 24 3 8 w 1 = Some (Page.Waiting, w') /\
  Z.of_nat (length (Page.printed w')) = Z.of_nat (length (Page.printed w)) + 1.
Proof.
  intros w w'.
  assert (Page.keys w = []) as Hk by reflexivity.
  assert (Page.more Page.wrap_at 24 3 8 w 1 = Some (Page.Waiting, w')) as Hm by reflexivity.
  split; [ exact Hk | split; [ exact Hm | ] ].
  exact (proj2 (more_screen_quota Page.wrap_at 24 3 8 w 1 Page.Waiting w' Hk Hm)).
Defined.

(** [more_uninterrupted] on one line of two pieces with a negative
    quota. *)
Lemma more_uninterrupted_witness :
  let w := {| Page.data := ["abcdef"%string]; Page.keys := []; Page.printed := [] |} in
  Page.shrinks Page.wrap_at 3 /\
  Forall (fun l => Page.truthy l = true) (Page.data w) /\
  (- 1 < 0 \/ Z.of_nat (length (Page.all_pieces Page.wrap_at 3 (Page.data w))) < - 1) /\
  (length (Page.data w) + list_sum (map String.length (Page.data w)) + 2 <= 9)%nat /\
  Page.more Page.wrap_at 24 3 9 w (- 1) =
    Some (Page.AtEnd,
          {| Page.data := []; Page.keys := [];
             Page.printed := ["abc"%string; "def"%string] |}).
Proof.
  intros w.
  assert (Page.shrinks Page.wrap_at 3) as Hsh by (apply wrap_at_shrinks; lia).
  assert (Forall (fun l => Page.truthy l = true) (Page.data w)) as Ht
    by (repeat constructor).
  assert (- 1 < 0 \/ Z.of_nat (length (Page.all_pieces Page.wrap_at 3 (Page.data w))) < - 1)
    as Hq by (left; lia).
  assert (length (Page.data w) + list_sum (map String.length (Page.data w)) + 2 <= 9)%nat
    as Hf by (cbn; lia).
  split; [ exact Hsh | split; [ exact Ht | split; [ exact Hq | split; [ exact Hf | ] ] ] ].
  exact (more_uninterrupted Page.wrap_at 24 3 9 w (- 1) Hsh Ht Hq Hf).
Defined.

(** [more_zero_quota] at two spaces. *)
Lemma more_zero_quota_witness :
  (2 + 1 < 4)%nat /\
  Page.more Page.wrap_at 1 3 4
    {| Page.data := ["abc"%string]; Page.keys := [Page.space; Page.space];
       Page.printed := [] |} 0 =
  Some (Page.Waiting,
        {| Page.data := ["abc"%string]; Page.keys := []; Page.printed := [] |}).
Proof.
  assert (2 + 1 < 4)%nat as Hf by lia.
  split; [ exact Hf | ].
  exact (more_zero_quota Page.wrap_at 3 2 4 ["abc"%string] [] Hf).
Defined.

(** [more_other_key_quits] at the key [q] after a screen of one line. *)
Lemma more_other_key_quits_witness :
  let q := Ascii.ascii_of_nat 113 in
  let w := {| Page.data := ["abcdef"%string]; Page.keys := [q]; Page.printed := [] |} in
  Page.shrinks Page.wrap_at 3 /\
  Page.keys w = [q] /\
  q <> Page.space /\
  q <> Page.cr /\
  (length (Page.data w) + list_sum (map String.length (Page.data w)) + 2 <= 9)%nat /\
  exists (o : Page.outcome) (w' : Page.world),
    Page.more Page.wrap_at 24 3 9 w 1 = Some (o, w') /\ o <> Page.Waiting.
Proof.
  intros q w.
  assert (Page.shrinks Page.wrap_at 3) as Hsh by (apply wrap_at_shrinks; lia).
  assert (Page.keys w = [q]) as Hk by reflexivity.
  assert (q <> Page.space) as Hs by discriminate.
  assert (q <> Page.cr) as Hc by discriminate.
  assert (length (Page.data w) + list_sum (map String.length (Page.data w)) + 2 <= 9)%nat
    as Hf by (cbn; lia).
  split; [ exact Hsh | split; [ exact Hk | split; [ exact Hs | split; [ exact Hc | ] ] ] ].
  split; [ exact Hf | ].
  destruct (more_other_key_quits Page.wrap_at 24 3 9 w 1 q [] Hsh Hk Hs Hc Hf)
    as (o & w' & Hm & Ho).
  exists o, w'. split; [ exact Hm | ].
  destruct o; [ discriminate | discriminate | contradiction ].
Defined.

End Witnesses.
